(** * backend/main.py: progress broadcast, status store and the /info endpoint

    A shallow embedding of [src/backend/main.py].  Python dicts compared with
    [==] are finite maps, the list of live WebSockets is a list of handles,
    exceptions are an explicit result type.  What the event loop and the
    worker thread of a download do, in the order they do it, is a trace of
    events applied to the state of the module-level objects [manager] and
    [download_manager] and of the task [broadcast_progress]. *)

From Stdlib Require Import ZArith Lia Ascii String.
From stdpp Require Import base option list gmap strings fin_maps sorting.

(** ** Python values and exceptions *)

(** The values that occur in the dicts this module reads and builds. *)
Inductive pyval :=
  | PNone
  | PStr (s : string)
  | PInt (n : Z).

#[global] Instance pyval_eq_dec : EqDecision pyval.
Proof. solve_decision. Defined.

(** A dict with string keys; [==] on dicts is equality of finite maps. *)
Abbreviation dict := (gmap string pyval).

(** [d.get(k)]: the value, or None when the key is absent. *)
Definition get (d : dict) (k : string) : pyval := default PNone (d !! k).

(** [d.get(k, dflt)] *)
Definition get_or (d : dict) (k : string) (dflt : pyval) : pyval :=
  default dflt (d !! k).

(** A live viewer channel.  WebSocket objects compare by identity, so a
    handle is all the registry ever looks at. *)
Definition WebSocket : Type := nat.

#[global] Instance WebSocket_eq_dec : EqDecision WebSocket := Nat.eq_dec.

Inductive exn :=
  | KeyError (key : string)
  | ValueError (msg : string)
  | AttributeError (msg : string)
  | TypeError (msg : string)
  | SendFailure (ws : WebSocket)     (* raised by [send_text] on a dead transport *)
  | ExtractorError (msg : string).   (* raised inside yt_dlp *)

#[global] Instance exn_eq_dec : EqDecision exn.
Proof. solve_decision. Defined.

(** [str(e)] *)
Definition exn_str (e : exn) : string :=
  match e with
  | KeyError k => "'" +:+ k +:+ "'"
  | ValueError m | AttributeError m | TypeError m | ExtractorError m => m
  | SendFailure _ => "Cannot call send once a close message has been sent."
  end.

Inductive result (A : Type) :=
  | Ok (a : A)
  | Raise (e : exn).
Arguments Ok {A} a.
Arguments Raise {A} e.

(** Sequencing: the first exception ends the computation. *)
#[global] Instance result_bind : MBind result := λ A B k r,
  match r with
  | Ok a => k a
  | Raise e => Raise e
  end.

(** ** json.dumps *)

#[warnings="-register-all"]
Inductive json :=
  | JNull
  | JString (s : string)
  | JNumber (n : Z)
  | JObject (members : list (string * json)).

Definition json_of (v : pyval) : json :=
  match v with
  | PNone => JNull
  | PStr s => JString s
  | PInt n => JNumber n
  end.

(** The wire form of a status dict, as the JSON object it denotes.  Members
    come in the enumeration order of the finite map. *)
Definition json_dumps (d : dict) : json :=
  JObject (prod_map id json_of <$> map_to_list d).

(** The member [k] of a JSON object. *)
Definition member (k : string) (j : json) : option json :=
  match j with
  | JObject ms =>
      match list_find (λ kv : string * json, kv.1 = k) ms with
      | Some (_, (_, v)) => Some v
      | None => None
      end
  | _ => None
  end.

(** ** ConnectionManager *)

Record ConnectionManager := { active_connections : list WebSocket }.

(** [__init__] *)
Definition ConnectionManager_init : ConnectionManager :=
  {| active_connections := [] |}.

(** [connect]: accept the handshake and append.  When [accept] raises (the
    client is gone, the socket was accepted before) nothing is appended and
    the exception ends the handler: such a call is no event of the
    registry. *)
Definition connect (m : ConnectionManager) (websocket : WebSocket)
  : ConnectionManager :=
  {| active_connections := active_connections m ++ [websocket] |}.

(** [list.remove(x)]: drop the first occurrence, ValueError when there is
    none. *)
Fixpoint list_remove (x : WebSocket) (l : list WebSocket)
  : result (list WebSocket) :=
  match l with
  | [] => Raise (ValueError "list.remove(x): x not in list")
  | y :: l' =>
      if decide (y = x) then Ok l'
      else l'' ← list_remove x l' ; Ok (y :: l'')
  end.

(** [disconnect] *)
Definition disconnect (m : ConnectionManager) (websocket : WebSocket)
  : result ConnectionManager :=
  l ← list_remove websocket (active_connections m) ;
  Ok {| active_connections := l |}.

(** What one call of [broadcast] leaves behind: how it ended, the messages
    that went out (in order), and the registry afterwards. *)
Record Sent := {
  outcome : result unit;
  delivered : list (WebSocket * json);
  registry : list WebSocket
}.

(** [send_text] raises on a transport in [down] and delivers otherwise. *)
Definition send_text (down : list WebSocket) (connection : WebSocket)
  : result unit :=
  if decide (connection ∈ down) then Raise (SendFailure connection) else Ok ().

(** *** The list iterator over the live list

    [for connection in self.active_connections] reads the live list by
    index: each round takes the element at the iterator's position and
    advances the position, and stops once the position is at or past the
    current length.  While a send is awaited the handlers of other
    connections run; [sched] gives, for each round, what they do to the
    list during that round's await, in the order they do it. *)

Inductive registry_change :=
  | Connects (ws : WebSocket)      (* a handler runs [connect]: append *)
  | Disconnects (ws : WebSocket).  (* a handler runs [disconnect]: remove *)

(** [disconnect] as run by another handler: a ValueError is raised in that
    handler, and the list is as before. *)
Definition drop_connection (l : list WebSocket) (ws : WebSocket)
  : list WebSocket :=
  match list_remove ws l with
  | Ok l' => l'
  | Raise _ => l
  end.

Definition apply_change (l : list WebSocket) (c : registry_change)
  : list WebSocket :=
  match c with
  | Connects ws => l ++ [ws]
  | Disconnects ws => drop_connection l ws
  end.

Fixpoint broadcast_iter (fuel : nat) (down : list WebSocket) (pos : nat)
    (conns : list WebSocket) (sched : list (list registry_change))
    (message : json) : option Sent :=
  match fuel with
  | O => None
  | S fuel' =>
      match conns !! pos with
      | None => Some {| outcome := Ok (); delivered := []; registry := conns |}
      | Some connection =>
          match send_text down connection with
          | Raise e =>
              Some {| outcome := Raise e; delivered := []; registry := conns |}
          | Ok _ =>
              let conns' := foldl apply_change conns (hd [] sched) in
              s ← broadcast_iter fuel' down (S pos) conns' (tl sched) message ;
              Some {| outcome := outcome s;
                      delivered := (connection, message) :: delivered s;
                      registry := registry s |}
          end
      end
  end.

(** The connection that a change registers. *)
Definition joining (c : registry_change) : option WebSocket :=
  match c with
  | Connects ws => Some ws
  | Disconnects _ => None
  end.

(** The connections that register while the call runs. *)
Definition newcomers (sched : list (list registry_change)) : list WebSocket :=
  omap joining (concat sched).

(** [broadcast], with the handlers of [sched] running while it waits.  One
    round per connection, registered or still to come, is enough, plus the
    last look at the length. *)
Definition broadcast_concurrent (down : list WebSocket) (m : ConnectionManager)
    (sched : list (list registry_change)) (message : json) : option Sent :=
  broadcast_iter (S (length (active_connections m) + length (newcomers sched)))
    down 0 (active_connections m) sched message.

(** [broadcast] when no handler runs while it waits. *)
Definition broadcast (down : list WebSocket) (m : ConnectionManager)
    (message : json) : option Sent :=
  broadcast_concurrent down m [] message.

(** ** str.strip and os.path.basename

    A str is held as the bytes of its UTF-8 encoding. *)

(** The bytes of a string. *)
Fixpoint chars (s : string) : list ascii :=
  match s with
  | EmptyString => []
  | String a s' => a :: chars s'
  end.

(** The characters for which [str.isspace] holds, each as its UTF-8
    encoding: U+0009 to U+000D, U+001C to U+0020, U+0085, U+00A0, U+1680,
    U+2000 to U+200A, U+2028, U+2029, U+202F, U+205F and U+3000. *)
Definition whitespace : list (list ascii) :=
  map (map ascii_of_nat)
    [ [9]; [10]; [11]; [12]; [13]; [28]; [29]; [30]; [31]; [32];
      [194; 133]; [194; 160]; [225; 154; 128];
      [226; 128; 128]; [226; 128; 129]; [226; 128; 130]; [226; 128; 131];
      [226; 128; 132]; [226; 128; 133]; [226; 128; 134]; [226; 128; 135];
      [226; 128; 136]; [226; 128; 137]; [226; 128; 138];
      [226; 128; 168]; [226; 128; 169]; [226; 128; 175];
      [226; 129; 159]; [227; 128; 128] ].

(** The white space character that [l] begins with. *)
Definition leading_space (l : list ascii) : option (list ascii) :=
  match list_find (λ w, w `prefix_of` l) whitespace with
  | Some (_, w) => Some w
  | None => None
  end.

(** The white space character that [l] ends with. *)
Definition trailing_space (l : list ascii) : option (list ascii) :=
  match list_find (λ w, w `suffix_of` l) whitespace with
  | Some (_, w) => Some w
  | None => None
  end.

(** [lstrip] and [rstrip] take one character off per round; a round per
    byte is enough. *)
Fixpoint lstrip (fuel : nat) (l : list ascii) : list ascii :=
  match fuel with
  | O => l
  | S fuel' =>
      match leading_space l with
      | Some w => lstrip fuel' (drop (length w) l)
      | None => l
      end
  end.

Fixpoint rstrip (fuel : nat) (l : list ascii) : list ascii :=
  match fuel with
  | O => l
  | S fuel' =>
      match trailing_space l with
      | Some w => rstrip fuel' (take (length l - length w) l)
      | None => l
      end
  end.

(** [s.strip()] *)
Definition strip (s : string) : string :=
  let l := chars s in
  let l := lstrip (length l) l in
  string_of_list_ascii (rstrip (length l) l).

Fixpoint has_slash (s : string) : bool :=
  match s with
  | EmptyString => false
  | String a s' => if decide (a = "/"%char) then true else has_slash s'
  end.

(** [os.path.basename(p)], as [posixpath] has it (the paths of this
    service are those of a Linux host): what follows the last slash. *)
Fixpoint basename (p : string) : string :=
  match p with
  | EmptyString => EmptyString
  | String _ p' => if has_slash p then basename p' else p
  end.

(** A run of white space characters. *)
Inductive blank : list ascii → Prop :=
  | blank_nil : blank []
  | blank_cons (w l : list ascii) : w ∈ whitespace → blank l → blank (w ++ l).

(** [t] neither begins nor ends with a white space character. *)
Definition trimmed (t : string) : Prop :=
  ∀ w, w ∈ whitespace → ¬ w `prefix_of` chars t ∧ ¬ w `suffix_of` chars t.

(** [t] is [s] without the white space around it: nothing else is taken
    away, and no white space is left at either end. *)
Definition stripped_of (s t : string) : Prop :=
  ∃ l r, chars s = l ++ chars t ++ r ∧ blank l ∧ blank r ∧ trimmed t.

(** [b] is the last component of the path [p]: what follows its last
    slash, the whole of [p] when it has none. *)
Definition base_of (p b : string) : Prop :=
  has_slash b = false
  ∧ ∃ dir, p = dir +:+ b ∧ (dir = "" ∨ ∃ dir', dir = dir' +:+ "/").

(** [v.strip()] on a value that may not be a str. *)
Definition py_strip (v : pyval) : result pyval :=
  match v with
  | PStr s => Ok (PStr (strip s))
  | PNone => Raise (AttributeError "'NoneType' object has no attribute 'strip'")
  | PInt _ => Raise (AttributeError "'int' object has no attribute 'strip'")
  end.

Definition py_basename (v : pyval) : result pyval :=
  match v with
  | PStr s => Ok (PStr (basename s))
  | PNone =>
      Raise (TypeError "expected str, bytes or os.PathLike object, not NoneType")
  | PInt _ =>
      Raise (TypeError "expected str, bytes or os.PathLike object, not int")
  end.

(** [d[k]] *)
Definition subscript (d : dict) (k : string) : result pyval :=
  match d !! k with
  | Some v => Ok v
  | None => Raise (KeyError k)
  end.

(** A dict display [{k1: v1, ..., kn: vn}]: entries are stored left to
    right. *)
Definition dict_of (items : list (string * pyval)) : dict :=
  foldl (λ (m : dict) kv, <[kv.1 := kv.2]> m) ∅ items.

(** ** DownloadManager *)

Record DownloadManager := { current_status : dict }.

(** [__init__] *)
Definition DownloadManager_init : DownloadManager := {| current_status := ∅ |}.

(** [hook], the progress callback handed to yt_dlp. *)
Definition hook (self : DownloadManager) (d : dict) : result DownloadManager :=
  status ← subscript d "status" ;
  if decide (status = PStr "downloading") then
    percent ← py_strip (get_or d "_percent_str" (PStr "")) ;
    speed ← py_strip (get_or d "_speed_str" (PStr "")) ;
    eta ← py_strip (get_or d "_eta_str" (PStr "")) ;
    filename ← py_basename (get_or d "filename" (PStr "")) ;
    Ok {| current_status :=
            dict_of [ ("status", PStr "downloading");
                      ("percent", percent);
                      ("speed", speed);
                      ("eta", eta);
                      ("filename", filename) ] |}
  else if decide (status = PStr "finished") then
    Ok {| current_status :=
            dict_of [ ("status", PStr "finished");
                      ("filename", get d "filename") ] |}
  else Ok self.

(** The value under [k] is a str, or there is none. *)
Definition str_or_missing (d : dict) (k : string) : Prop :=
  match d !! k with
  | None | Some (PStr _) => True
  | Some _ => False
  end.

(** A progress report that [hook] takes without raising. *)
Definition report_ok (d : dict) : Prop :=
  is_Some (d !! "status")
  ∧ (d !! "status" = Some (PStr "downloading") →
       str_or_missing d "_percent_str" ∧ str_or_missing d "_speed_str"
       ∧ str_or_missing d "_eta_str" ∧ str_or_missing d "filename").

(** The str under [k], the empty string when there is none. *)
Definition field (d : dict) (k : string) : string :=
  match d !! k with
  | Some (PStr s) => s
  | _ => ""
  end.

(** ** /download *)

Record DownloadRequest := { req_url : string; req_format_id : string }.

(** A unit of work handed to [BackgroundTasks]: the function and its
    arguments.  The only function ever scheduled is [run_download]. *)
Inductive Task :=
  | run_download (url : string) (format_id : string).

(** [background_tasks.add_task] *)
Definition add_task (background_tasks : list Task) (t : Task) : list Task :=
  background_tasks ++ [t].

(** [start_download]: the new manager, the task list, and the response. *)
Definition start_download (dm : DownloadManager) (req : DownloadRequest)
    (background_tasks : list Task)
  : DownloadManager * list Task * dict :=
  let dm := {| current_status := dict_of [("status", PStr "starting")] |} in
  let background_tasks :=
    add_task background_tasks (run_download (req_url req) (req_format_id req)) in
  (dm, background_tasks, dict_of [("message", PStr "Download started")]).

(** ** broadcast_progress and the running system *)

(** Where the task created at startup stands.  The loop reads
    [download_manager.current_status] three times in a turn: in the test,
    as the argument of [json.dumps], and for the copy once the awaited
    [broadcast] has returned.  The store is assigned by the worker thread
    of the download, so the stages between the reads are kept apart.
    Inside [broadcast] every send is awaited, and the handlers of the
    connections run during the awaits, so the rounds of its loop are kept
    apart as well. *)
Inductive TaskState :=
  | Running (last_status : dict)   (* at the test of the [if] *)
  | Sending (last_status : dict)   (* the test held; at [json.dumps] *)
  | Broadcasting (last_status : dict) (message : json) (pos : nat)
                                   (* in [broadcast], the iterator at [pos] *)
  | Copying (last_status : dict)   (* [broadcast] returned; at [.copy()] *)
  | Crashed (e : exn).             (* an exception left the loop *)

Record System := {
  manager : ConnectionManager;
  download_manager : DownloadManager;
  progress_task : TaskState;
  (** work handed to the framework by [/download], never awaited *)
  scheduled : list Task;
  (** every message that reached a connection, oldest first *)
  wire : list (WebSocket * json);
  (** the argument of every call of [manager.broadcast], oldest first *)
  published : list json
}.

(** Module load and [startup_event]. *)
Definition initial : System :=
  {| manager := ConnectionManager_init;
     download_manager := DownloadManager_init;
     progress_task := Running ∅;
     scheduled := [];
     wire := [];
     published := [] |}.

Definition with_manager (sys : System) (m : ConnectionManager) : System :=
  {| manager := m; download_manager := download_manager sys;
     progress_task := progress_task sys; scheduled := scheduled sys;
     wire := wire sys; published := published sys |}.

Definition with_download_manager (sys : System) (dm : DownloadManager)
  : System :=
  {| manager := manager sys; download_manager := dm;
     progress_task := progress_task sys; scheduled := scheduled sys;
     wire := wire sys; published := published sys |}.

Definition with_task (sys : System) (t : TaskState) : System :=
  {| manager := manager sys; download_manager := download_manager sys;
     progress_task := t; scheduled := scheduled sys;
     wire := wire sys; published := published sys |}.

(** The next stage of [broadcast_progress]; [down] are the transports on
    which a send raises.  A test that fails leads, through the [pass] and
    the sleep, back to the test.  A round of the loop of [broadcast] takes
    the connection at the iterator's position in the list as it is now and
    sends to it; the exception of a send ends the task. *)
Definition broadcast_progress_step (down : list WebSocket) (sys : System)
  : System :=
  let cur := current_status (download_manager sys) in
  match progress_task sys with
  | Running last_status =>
      if decide (cur ≠ last_status) then with_task sys (Sending last_status)
      else sys
  | Sending last_status =>
      let message := json_dumps cur in
      {| manager := manager sys;
         download_manager := download_manager sys;
         progress_task := Broadcasting last_status message 0;
         scheduled := scheduled sys;
         wire := wire sys;
         published := published sys ++ [message] |}
  | Broadcasting last_status message pos =>
      match active_connections (manager sys) !! pos with
      | None => with_task sys (Copying last_status)
      | Some connection =>
          match send_text down connection with
          | Raise e => with_task sys (Crashed e)
          | Ok _ =>
              {| manager := manager sys;
                 download_manager := download_manager sys;
                 progress_task := Broadcasting last_status message (S pos);
                 scheduled := scheduled sys;
                 wire := wire sys ++ [(connection, message)];
                 published := published sys |}
          end
      end
  | Copying _ => with_task sys (Running cur)
  | Crashed _ => sys
  end.

(** What can run next. *)
Inductive event :=
  | WsConnect (ws : WebSocket)            (* [websocket_endpoint] up to its loop *)
  | WsDisconnect (ws : WebSocket)         (* its [except WebSocketDisconnect] *)
  | PostDownload (req : DownloadRequest)  (* [start_download] *)
  | ProgressHook (d : dict)               (* yt_dlp calls [download_manager.hook] *)
  | PollStep (down : list WebSocket).     (* a stage of [broadcast_progress] *)

(** An exception of [disconnect] or of [hook] is raised into the handler or
    the worker that made the call; the shared objects stay as they were. *)
Definition step (sys : System) (ev : event) : System :=
  match ev with
  | WsConnect ws => with_manager sys (connect (manager sys) ws)
  | WsDisconnect ws =>
      match disconnect (manager sys) ws with
      | Ok m => with_manager sys m
      | Raise _ => sys
      end
  | PostDownload req =>
      let '(dm, tasks, _) :=
        start_download (download_manager sys) req (scheduled sys) in
      {| manager := manager sys; download_manager := dm;
         progress_task := progress_task sys; scheduled := tasks;
         wire := wire sys; published := published sys |}
  | ProgressHook d =>
      match hook (download_manager sys) d with
      | Ok dm => with_download_manager sys dm
      | Raise _ => sys
      end
  | PollStep down => broadcast_progress_step down sys
  end.

Definition run (trace : list event) (sys : System) : System :=
  foldl step sys trace.

(** The store values that the tests of the loop read along [trace]. *)
Fixpoint observed (trace : list event) (sys : System) : list dict :=
  match trace with
  | [] => []
  | ev :: trace' =>
      match ev, progress_task sys with
      | PollStep _, Running _ =>
          current_status (download_manager sys) :: observed trace' (step sys ev)
      | _, _ => observed trace' (step sys ev)
      end
  end.

(** "The subsequence of distinct consecutive values", read after [prev]:
    a value equal to the one kept before it is dropped. *)
Fixpoint coalesce (prev : dict) (values : list dict) : list dict :=
  match values with
  | [] => []
  | v :: values' =>
      if decide (v = prev) then coalesce prev values'
      else v :: coalesce v values'
  end.

(** The same read from the start of a sequence: the first value is kept. *)
Definition distinct_consecutive (values : list dict) : list dict :=
  match values with
  | [] => []
  | v :: values' => v :: coalesce v values'
  end.

(** No two neighbours of a list are equal. *)
Definition no_repeat {A} (l : list A) : Prop :=
  ∀ i x y, l !! i = Some x → l !! S i = Some y → x ≠ y.

(** Events that write to the status store. *)
Definition is_write (ev : event) : bool :=
  match ev with
  | PostDownload _ | ProgressHook _ => true
  | _ => false
  end.

(** The loop is not between the test of a turn and its copy. *)
Definition between_turns (t : TaskState) : Prop :=
  match t with
  | Sending _ | Broadcasting _ _ _ | Copying _ => False
  | Running _ | Crashed _ => True
  end.

(** No write to the store lands inside a turn of the loop. *)
Fixpoint turns_undisturbed (trace : list event) (sys : System) : Prop :=
  match trace with
  | [] => True
  | ev :: trace' =>
      (is_write ev = true → between_turns (progress_task sys))
      ∧ turns_undisturbed trace' (step sys ev)
  end.

(** What the loop still has to hand to [broadcast], given the values its
    coming tests read, when no write lands inside a turn. *)
Definition expected (sys : System) (obs : list dict) : list dict :=
  let cur := current_status (download_manager sys) in
  match progress_task sys with
  | Running last_status => coalesce last_status obs
  | Sending _ => cur :: coalesce cur obs
  | Broadcasting _ _ _ | Copying _ => coalesce cur obs
  | Crashed _ => []
  end.

(** The dicts that [start_download] and [hook] put into the store. *)
Inductive status_shape : dict → Prop :=
  | shape_starting :
      status_shape (dict_of [("status", PStr "starting")])
  | shape_downloading (percent speed eta filename : string) :
      status_shape (dict_of [ ("status", PStr "downloading");
                              ("percent", PStr percent);
                              ("speed", PStr speed);
                              ("eta", PStr eta);
                              ("filename", PStr filename) ])
  | shape_finished (filename : pyval) :
      status_shape (dict_of [ ("status", PStr "finished");
                              ("filename", filename) ]).

(** Nothing has been written, read as new, or sent. *)
Definition untouched (sys : System) : Prop :=
  current_status (download_manager sys) = ∅
  ∧ progress_task sys = Running ∅
  ∧ published sys = []
  ∧ wire sys = [].

(** The statuses that the code writes to the store along a trace:
    [start_download] the starting status; [hook], for a downloading report
    that it takes, the report's percent, speed and eta without the white
    space around them and the last component of its file name; [hook], for
    a finished report, the file name as it is in the report. *)
Inductive written (trace : list event) : dict → Prop :=
  | written_starting (req : DownloadRequest) :
      PostDownload req ∈ trace →
      written trace (dict_of [("status", PStr "starting")])
  | written_downloading (report : dict) (percent speed eta filename : string) :
      ProgressHook report ∈ trace →
      report !! "status" = Some (PStr "downloading") →
      report_ok report →
      stripped_of (field report "_percent_str") percent →
      stripped_of (field report "_speed_str") speed →
      stripped_of (field report "_eta_str") eta →
      base_of (field report "filename") filename →
      written trace (dict_of [ ("status", PStr "downloading");
                               ("percent", PStr percent);
                               ("speed", PStr speed);
                               ("eta", PStr eta);
                               ("filename", PStr filename) ])
  | written_finished (report : dict) :
      ProgressHook report ∈ trace →
      report !! "status" = Some (PStr "finished") →
      written trace (dict_of [ ("status", PStr "finished");
                               ("filename", get report "filename") ]).

(** After the events [hist]: the store holds the initial empty dict or a
    status written by the code; while it is empty the loop is at its test
    with its initial memory; the message of a broadcast under way and
    every message on the wire is the image of a written status. *)
Definition wire_ok (hist : list event) (sys : System) : Prop :=
  (current_status (download_manager sys) = ∅
   ∨ written hist (current_status (download_manager sys)))
  ∧ (current_status (download_manager sys) = ∅ →
       progress_task sys = Running ∅ ∨ ∃ e, progress_task sys = Crashed e)
  ∧ (∀ last_status message pos,
       progress_task sys = Broadcasting last_status message pos →
       ∃ d, message = json_dumps d ∧ written hist d)
  ∧ Forall (λ x, ∃ d, x.2 = json_dumps d ∧ written hist d) (wire sys).

(** ** /info *)

Record VideoRequest := { url : string }.

(** What a dict holds under a key, where the code tells a key that is
    missing from a key that holds None: [f[k]] raises on the first and
    gives None on the second, [info.get(k, [])] gives the default on the
    first and None on the second. *)
Inductive slot (A : Type) :=
  | Absent
  | IsNone
  | Value (a : A).
Arguments Absent {A}.
Arguments IsNone {A}.
Arguments Value {A} a.

(** [d.get(k)] on such a key. *)
Definition value_of {A} (v : slot A) : option A :=
  match v with
  | Value a => Some a
  | Absent | IsNone => None
  end.

(** The keys of a yt_dlp format dict that [get_info] reads.  For the keys
    read with [f.get], [None] is a key that is missing or holds None;
    [filesize] is a number of bytes. *)
Record Format := {
  format_id : slot string;
  ext : slot string;
  vcodec : option string;
  resolution : option string;
  filesize : option Z;
  format_note : option string
}.

(** The keys of an info dict that [get_info] reads, but for ['entries']. *)
Record Info := {
  _type : option string;
  title : option string;
  thumbnail : option string;
  duration : option Z;
  formats : slot (list Format)
}.

(** What [extract_info] returns: the info dict and, apart, the value under
    its key ['entries'] (the entries are info dicts themselves). *)
Record Extraction := {
  info : Info;
  entries : option (list Info)
}.

(** [ydl.extract_info(url, download=False)]: the collaborator either raises
    or returns an info dict. *)
Definition Extractor := string → result Extraction.

(** One element of ['formats'] in the response. *)
Record FormatEntry := {
  e_format_id : option string;
  e_resolution : string;
  e_ext : option string;
  e_filesize : option Z;
  e_note : option string
}.

Record InfoResponse := {
  r_title : option string;
  r_thumbnail : option string;
  r_duration : option Z;
  r_formats : list FormatEntry
}.

Record HTTPException := { status_code : Z; detail : string }.

(** The playlist step: the first entry stands in for a playlist that has
    one. *)
Definition select_entry (x : Extraction) : Info :=
  if decide (_type (info x) = Some "playlist") then
    match entries x with
    | Some (first :: _) => first
    | _ => info x
    end
  else info x.

(** [f[k]] *)
Definition required (k : string) (v : slot string) : result (option string) :=
  match v with
  | Value s => Ok (Some s)
  | IsNone => Ok None
  | Absent => Raise (KeyError k)
  end.

(** What [for f in info.get('formats', [])] iterates over. *)
Definition formats_or_empty (v : slot (list Format)) : result (list Format) :=
  match v with
  | Value fs => Ok fs
  | Absent => Ok []
  | IsNone => Raise (TypeError "'NoneType' object is not iterable")
  end.

(** The formats of an info dict, none when it has no list of them. *)
Definition listed (v : slot (list Format)) : list Format :=
  match v with
  | Value fs => fs
  | Absent | IsNone => []
  end.

(** [v or dflt] on a str or None. *)
Definition str_or (v : option string) (dflt : string) : string :=
  match v with
  | Some s => if decide (s = "") then dflt else s
  | None => dflt
  end.

(** The dict appended for one format. *)
Definition entry_of (f : Format) : result FormatEntry :=
  fid ← required "format_id" (format_id f) ;
  fext ← required "ext" (ext f) ;
  Ok {| e_format_id := fid;
        e_resolution := str_or (resolution f) "audio only";
        e_ext := fext;
        e_filesize := filesize f;
        e_note := format_note f |}.

(** [f.get('vcodec') != 'none'] *)
Definition is_video (f : Format) : bool :=
  bool_decide (vcodec f ≠ Some "none").

(** The [for f in info.get('formats', [])] loop. *)
Fixpoint collect_formats (fs : list Format) : result (list FormatEntry) :=
  match fs with
  | [] => Ok []
  | f :: fs' =>
      if is_video f then
        e ← entry_of f ;
        es ← collect_formats fs' ;
        Ok (e :: es)
      else collect_formats fs'
  end.

(** [x.get('filesize') or 0] *)
Definition size_key (e : FormatEntry) : Z := default 0%Z (e_filesize e).

(** [list.sort(key=size_key, reverse=True)]: a stable sort, largest key
    first; entries with equal keys keep their order. *)
Fixpoint insert_desc (e : FormatEntry) (sorted : list FormatEntry)
  : list FormatEntry :=
  match sorted with
  | [] => [e]
  | y :: sorted' =>
      if (size_key e <? size_key y)%Z then y :: insert_desc e sorted'
      else e :: y :: sorted'
  end.

Definition sort_desc (l : list FormatEntry) : list FormatEntry :=
  foldr insert_desc [] l.


(** A format the loop keeps: not audio only. *)
Definition video (f : Format) : Prop := vcodec f ≠ Some "none".

(** A kept format has the two keys the loop subscripts. *)
Definition has_required_keys (f : Format) : Prop :=
  video f → format_id f ≠ Absent ∧ ext f ≠ Absent.

(** The entry of a response that stands for the format [f]: its id,
    extension, size and note as the format has them, and its resolution, or
    ['audio only'] when the format has none or an empty one. *)
Definition entry_for (f : Format) (e : FormatEntry) : Prop :=
  format_id f ≠ Absent ∧ e_format_id e = value_of (format_id f)
  ∧ ext f ≠ Absent ∧ e_ext e = value_of (ext f)
  ∧ e_filesize e = filesize f
  ∧ e_note e = format_note f
  ∧ e_resolution e = match resolution f with
                     | Some res => if decide (res = "") then "audio only"
                                   else res
                     | None => "audio only"
                     end.

(** The body of the [try]. *)
Definition get_info_try (ydl : Extractor) (req : VideoRequest)
  : result InfoResponse :=
  x ← ydl (url req) ;
  let info := select_entry x in
  fs ← formats_or_empty (formats info) ;
  es ← collect_formats fs ;
  Ok {| r_title := title info;
        r_thumbnail := thumbnail info;
        r_duration := duration info;
        r_formats := sort_desc es |}.

(** [get_info]: any exception of the body becomes an HTTPException. *)
Definition get_info (ydl : Extractor) (req : VideoRequest)
  : InfoResponse + HTTPException :=
  match get_info_try ydl req with
  | Ok r => inl r
  | Raise e => inr {| status_code := 400; detail := exn_str e |}
  end.

(** ** run_download, the module-level hook, and the views used further on *)

Definition starts_with_slash (s : string) : bool :=
  match s with
  | String a _ => bool_decide (a = "/"%char)
  | EmptyString => false
  end.

Fixpoint ends_with_slash (s : string) : bool :=
  match s with
  | EmptyString => false
  | String a EmptyString => bool_decide (a = "/"%char)
  | String _ s' => ends_with_slash s'
  end.

(** [os.path.join(a, b)]: an absolute [b] wins; otherwise the two are put
    together with one slash, unless [a] is empty or brings its own. *)
Definition path_join (a b : string) : string :=
  if starts_with_slash b then b
  else if bool_decide (a = "") || ends_with_slash a then a +:+ b
  else a +:+ "/" +:+ b.

(** The options [run_download] hands to yt_dlp. *)
Definition save_path : string := "/mnt/c/Users/lucky/Desktop/TubeDownloads".

Definition outtmpl : string := path_join save_path "%(title)s.%(ext)s".

Definition format_selector (format_id : string) : string :=
  format_id +:+ "+bestaudio/best".

(** [s.replace('%', '')] *)
Fixpoint remove_percent (s : string) : string :=
  match s with
  | EmptyString => EmptyString
  | String a s' =>
      if decide (a = "%"%char) then remove_percent s'
      else String a (remove_percent s')
  end.

Definition py_remove_percent (v : pyval) : result pyval :=
  match v with
  | PStr s => Ok (PStr (remove_percent s))
  | PNone =>
      Raise (AttributeError "'NoneType' object has no attribute 'replace'")
  | PInt _ => Raise (AttributeError "'int' object has no attribute 'replace'")
  end.

(** The dict that the module-level [progress_hook] builds inside its
    [try]. *)
Definition progress_data (d : dict) : result dict :=
  p ← py_remove_percent (get_or d "_percent_str" (PStr "0%")) ;
  Ok (dict_of [ ("status", PStr "downloading");
                ("filename", get d "filename");
                ("percentage", p);
                ("speed", get d "_speed_str");
                ("eta", get d "_eta_str") ]).

(** The module-level [progress_hook]: the dict is built and dropped, an
    exception inside the [try] is printed and dropped. *)
Definition progress_hook (d : dict) : result unit :=
  status ← subscript d "status" ;
  if decide (status = PStr "downloading") then
    match progress_data d with
    | Ok _ => Ok ()
    | Raise _ => Ok ()
    end
  else Ok ().

(** The stages of the loop that a trace runs. *)
Definition is_poll (ev : event) : bool :=
  match ev with
  | PollStep _ => true
  | _ => false
  end.

Definition poll_steps (trace : list event) : list event :=
  filter (λ ev, is_poll ev = true) trace.

(** The handles that connect along a trace, in order. *)
Definition connects (trace : list event) : list WebSocket :=
  omap (λ ev, match ev with WsConnect ws => Some ws | _ => None end) trace.

(** The endpoints that are open after a trace, in the order they
    connected, when [live] were open before it. *)
Definition open_endpoints (live : list WebSocket) (trace : list event)
  : list WebSocket :=
  foldl (λ live ev,
           match ev with
           | WsConnect ws => live ++ [ws]
           | WsDisconnect ws => filter (λ c, c ≠ ws) live
           | _ => live
           end) live trace.

(** The downloads asked for along a trace, in order. *)
Definition jobs (trace : list event) : list Task :=
  omap (λ ev, match ev with
              | PostDownload req =>
                  Some (run_download (req_url req) (req_format_id req))
              | _ => None
              end) trace.

(** The messages that reached [ws], oldest first. *)
Definition received (ws : WebSocket) (sys : System) : list json :=
  snd <$> filter (λ x, x.1 = ws) (wire sys).

(** An event that neither connects nor disconnects [ws] and meets no dead
    transport. *)
Definition leaves_alone (ws : WebSocket) (ev : event) : Prop :=
  match ev with
  | WsConnect ws' | WsDisconnect ws' => ws' ≠ ws
  | PollStep down => down = []
  | _ => True
  end.

(** [ws] is registered, once. *)
Definition registered_once (ws : WebSocket) (sys : System) : Prop :=
  filter (λ c, c = ws) (active_connections (manager sys)) = [ws].

(** The event of a handler that changes the registry. *)
Definition event_of (c : registry_change) : event :=
  match c with
  | Connects ws => WsConnect ws
  | Disconnects ws => WsDisconnect ws
  end.

(** [n] rounds of the loop of [broadcast] as stages of the task, each
    followed by what the handlers of [sched] do during its await. *)
Fixpoint rounds (n : nat) (down : list WebSocket)
    (sched : list (list registry_change)) : list event :=
  match n with
  | O => []
  | S n' =>
      PollStep down :: (event_of <$> hd [] sched) ++ rounds n' down (tl sched)
  end.

(** The loop is inside [broadcast]. *)
Definition in_broadcast (t : TaskState) : Prop :=
  match t with
  | Broadcasting _ _ _ => True
  | _ => False
  end.

(** No connection leaves the registry while a broadcast is under way. *)
Fixpoint sends_undisturbed (trace : list event) (sys : System) : Prop :=
  match trace with
  | [] => True
  | ev :: trace' =>
      match ev with
      | WsDisconnect _ => ¬ in_broadcast (progress_task sys)
      | _ => True
      end
      ∧ sends_undisturbed trace' (step sys ev)
  end.

(** How far [ws] is with the messages handed to [broadcast] since the log
    was [published0] and [ws] had received [received0]: it has received all
    of them, but for the one of a broadcast under way whose iterator has
    not come to it yet. *)
Definition caught_up (ws : WebSocket) (published0 received0 : list json)
    (sys : System) : Prop :=
  ∃ new,
    published sys = published0 ++ new
    ∧ match progress_task sys with
      | Broadcasting _ message pos =>
          ∃ new' i,
            new = new' ++ [message]
            ∧ active_connections (manager sys) !! i = Some ws
            ∧ received ws sys
              = received0 ++ new' ++ (if decide (i < pos) then [message] else [])
      | _ => received ws sys = received0 ++ new
      end.

(** * Properties *)

(** ** The registry *)

Lemma list_remove_absent (x : WebSocket) (l : list WebSocket) :
  x ∉ l → list_remove x l = Raise (ValueError "list.remove(x): x not in list").
Proof.
  induction l as [|y l IH]; intros Hx; simpl; [done|].
  apply not_elem_of_cons in Hx as [Hne Hx].
  destruct (decide (y = x)) as [->|_]; [done|].
  by rewrite IH.
Qed.

Lemma list_remove_present (x : WebSocket) (l : list WebSocket) :
  x ∈ l →
  ∃ l1 l2, l = l1 ++ x :: l2 ∧ (x ∉ l1) ∧ list_remove x l = Ok (l1 ++ l2).
Proof.
  induction l as [|y l IH]; intros Hx; [by apply elem_of_nil in Hx|].
  simpl. destruct (decide (y = x)) as [->|Hne].
  - exists [], l. split_and!; [done| |done]. apply not_elem_of_nil.
  - apply elem_of_cons in Hx as [->|Hx]; [done|].
    destruct (IH Hx) as (l1 & l2 & -> & Hl1 & ->).
    exists (y :: l1), l2. split_and!; [done| |done].
    apply not_elem_of_cons. split; [congruence|done].
Qed.

Lemma list_remove_Ok_elem (x : WebSocket) (l l' : list WebSocket) :
  list_remove x l = Ok l' → x ∈ l.
Proof.
  intros H. destruct (decide (x ∈ l)) as [|Hn]; [done|].
  by rewrite (list_remove_absent _ _ Hn) in H.
Qed.

(** C3, as amended: [disconnect] is not idempotent.  It raises ValueError
    exactly when the connection is not registered; a registered connection
    is taken out at its first occurrence, and nothing else changes; and a
    second disconnect of a connection that was registered once raises. *)
Theorem disconnect_raises_iff_absent (m : ConnectionManager) (ws : WebSocket) :
  (ws ∉ active_connections m ↔
     disconnect m ws = Raise (ValueError "list.remove(x): x not in list"))
  ∧ (ws ∈ active_connections m →
       ∃ l1 l2, active_connections m = l1 ++ ws :: l2 ∧ (ws ∉ l1)
                ∧ disconnect m ws = Ok {| active_connections := l1 ++ l2 |})
  ∧ (∀ m', disconnect m ws = Ok m' →
       ∃ l1 l2, active_connections m = l1 ++ ws :: l2 ∧ (ws ∉ l1)
                ∧ active_connections m' = l1 ++ l2
                ∧ (ws ∉ l2 →
                     disconnect m' ws
                     = Raise (ValueError "list.remove(x): x not in list"))).
Proof.
  unfold disconnect. split_and!.
  - split.
    + intros H. by rewrite (list_remove_absent _ _ H).
    + intros H Hin.
      destruct (list_remove_present _ _ Hin) as (l1 & l2 & _ & _ & Hr).
      by rewrite Hr in H.
  - intros Hin.
    destruct (list_remove_present _ _ Hin) as (l1 & l2 & Hm & Hl1 & Hr).
    exists l1, l2. by rewrite Hr.
  - intros m' H.
    destruct (list_remove ws (active_connections m)) as [l|e] eqn:Hr;
      simpl in H; [|done].
    injection H as <-.
    pose proof (list_remove_Ok_elem _ _ _ Hr) as Hin.
    destruct (list_remove_present _ _ Hin) as (l1 & l2 & Hm & Hl1 & Hr').
    rewrite Hr in Hr'. injection Hr' as ->.
    exists l1, l2. split_and!; [done..|].
    simpl. intros Hl2. rewrite list_remove_absent; [done|].
    rewrite not_elem_of_app. by split.
Qed.

(** C3, the claim as stated fails: unregistering a connection that is not
    registered raises. *)
Lemma disconnect_absent_not_noop :
  ¬ (∀ (m : ConnectionManager) (ws : WebSocket),
       ws ∉ active_connections m → disconnect m ws = Ok m).
Proof.
  intros H.
  specialize (H {| active_connections := [1; 2] |} 7).
  assert (7 ∉ [1; 2]) as Hn by (rewrite !not_elem_of_cons; split_and!; [lia..|apply not_elem_of_nil]).
  specialize (H Hn). vm_compute in H. discriminate H.
Qed.

(** ** broadcast *)

Lemma send_text_up (down : list WebSocket) (c : WebSocket) :
  c ∉ down → send_text down c = Ok ().
Proof. intros H. unfold send_text. by rewrite decide_False. Qed.

Lemma send_text_down (down : list WebSocket) (c : WebSocket) :
  c ∈ down → send_text down c = Raise (SendFailure c).
Proof. intros H. unfold send_text. by rewrite decide_True. Qed.

Lemma send_text_cases (down : list WebSocket) (c : WebSocket) :
  ((c ∉ down) ∧ send_text down c = Ok ())
  ∨ (c ∈ down ∧ send_text down c = Raise (SendFailure c)).
Proof.
  destruct (decide (c ∈ down)) as [Hd|Hu].
  - right. by rewrite send_text_down.
  - left. by rewrite send_text_up.
Qed.

Lemma length_drop_connection (l : list WebSocket) (ws : WebSocket) :
  length (drop_connection l ws) ≤ length l.
Proof.
  unfold drop_connection.
  destruct (decide (ws ∈ l)) as [Hin|Hn].
  - destruct (list_remove_present _ _ Hin) as (l1 & l2 & -> & _ & ->).
    rewrite !length_app. simpl. lia.
  - by rewrite (list_remove_absent _ _ Hn).
Qed.

(** The list grows by at most the connections that register. *)
Lemma length_foldl_apply_change (cs : list registry_change)
    (l : list WebSocket) :
  length (foldl apply_change l cs) ≤ length l + length (omap joining cs).
Proof.
  revert l. induction cs as [|c cs IH]; intros l; [simpl; lia|].
  cbn [foldl]. specialize (IH (apply_change l c)).
  destruct c as [ws|ws].
  - change (omap joining (Connects ws :: cs)) with (ws :: omap joining cs).
    cbn [apply_change length] in *. rewrite length_app in IH. simpl in IH. lia.
  - change (omap joining (Disconnects ws :: cs)) with (omap joining cs).
    cbn [apply_change] in *. pose proof (length_drop_connection l ws). lia.
Qed.

Lemma concat_hd_tl (sched : list (list registry_change)) :
  concat sched = hd [] sched ++ concat (tl sched).
Proof. by destruct sched. Qed.

(** The newcomers of the first round, then those of the later rounds. *)
Lemma newcomers_split (sched : list (list registry_change)) :
  newcomers sched = omap joining (hd [] sched) ++ newcomers (tl sched).
Proof. unfold newcomers. by rewrite (concat_hd_tl sched) at 1; rewrite omap_app. Qed.

Lemma concat_take_S (k : nat) (sched : list (list registry_change)) :
  concat (take (S k) sched) = hd [] sched ++ concat (take k (tl sched)).
Proof. destruct sched as [|cs sched]; [by destruct k|done]. Qed.

(** The loop always ends, whatever the handlers do meanwhile: each round
    moves the position forward, and the list grows only by the connections
    that register. *)
Lemma broadcast_iter_total (fuel : nat) (down : list WebSocket) (pos : nat)
    (conns : list WebSocket) (sched : list (list registry_change))
    (message : json) :
  length conns + length (newcomers sched) - pos < fuel →
  ∃ s, broadcast_iter fuel down pos conns sched message = Some s
       ∧ (down = [] → outcome s = Ok ()).
Proof.
  revert pos conns sched.
  induction fuel as [|fuel IH]; intros pos conns sched Hf; [lia|].
  simpl. destruct (conns !! pos) as [c|] eqn:Hc; [|by eexists].
  destruct (send_text down c) as [[]|e] eqn:Hs.
  - apply lookup_lt_Some in Hc.
    pose proof (length_foldl_apply_change (hd [] sched) conns) as Hlen.
    rewrite (newcomers_split sched), length_app in Hf.
    destruct (IH (S pos) (foldl apply_change conns (hd [] sched))
                (tl sched)) as (s & -> & Hok); [lia|].
    simpl. by eexists.
  - eexists. split; [done|]. intros ->. simpl.
    unfold send_text in Hs. rewrite decide_False in Hs; [done|].
    apply not_elem_of_nil.
Qed.

(** What a call does, whatever the handlers do meanwhile: it serves the
    connections it finds at the iterator's position, round after round,
    until the list is exhausted or a send raises; the registry it leaves is
    the one it found with the handlers' changes of the rounds that were run. *)
Lemma broadcast_iter_served (fuel : nat) (down : list WebSocket) (pos : nat)
    (conns : list WebSocket) (sched : list (list registry_change))
    (message : json) :
  length conns + length (newcomers sched) - pos < fuel →
  ∃ s served,
    broadcast_iter fuel down pos conns sched message = Some s
    ∧ delivered s = (λ c, (c, message)) <$> served
    ∧ Forall (λ c, c ∉ down) served
    ∧ registry s
      = foldl apply_change conns (concat (take (length served) sched))
    ∧ match outcome s with
      | Ok _ => registry s !! (pos + length served) = None
      | Raise e =>
          ∃ c, e = SendFailure c ∧ c ∈ down
               ∧ registry s !! (pos + length served) = Some c
      end.
Proof.
  revert pos conns sched.
  induction fuel as [|fuel IH]; intros pos conns sched Hf; [lia|].
  cbn [broadcast_iter]. destruct (conns !! pos) as [c|] eqn:Hc.
  - destruct (send_text_cases down c) as [[Hu ->]|[Hd ->]].
    + apply lookup_lt_Some in Hc as Hlt.
      pose proof (length_foldl_apply_change (hd [] sched) conns) as Hlen.
      rewrite (newcomers_split sched), length_app in Hf.
      destruct (IH (S pos) (foldl apply_change conns (hd [] sched))
                  (tl sched)) as (s & served & -> & Hd & Hup & Hr & Ho); [lia|].
      eexists _, (c :: served). split; [reflexivity|]. simpl.
      split_and!; [by rewrite Hd|by constructor| |].
      * by rewrite Hr, concat_take_S, foldl_app.
      * by replace (pos + S (length served)) with (S pos + length served) by lia.
    + eexists _, []. split; [reflexivity|]. simpl.
      rewrite Nat.add_0_r. split_and!; [done..|]. by exists c.
  - eexists _, []. split; [reflexivity|]. simpl.
    rewrite Nat.add_0_r. by split_and!.
Qed.

(** A call with nothing else running walks the rest of the list up to the
    first dead transport. *)
Lemma broadcast_iter_alone (fuel : nat) (down : list WebSocket) (pos : nat)
    (conns : list WebSocket) (message : json) :
  length conns - pos < fuel →
  ∃ s before rest,
    broadcast_iter fuel down pos conns [] message = Some s
    ∧ drop pos conns = before ++ rest
    ∧ Forall (λ c, c ∉ down) before
    ∧ delivered s = (λ c, (c, message)) <$> before
    ∧ registry s = conns
    ∧ match rest with
      | [] => outcome s = Ok ()
      | c :: _ => c ∈ down ∧ outcome s = Raise (SendFailure c)
      end.
Proof.
  revert pos. induction fuel as [|fuel IH]; intros pos Hf; [lia|].
  cbn [broadcast_iter]. destruct (conns !! pos) as [c|] eqn:Hc.
  - rewrite (drop_S _ _ _ Hc).
    destruct (send_text_cases down c) as [[Hu ->]|[Hd ->]].
    + apply lookup_lt_Some in Hc as Hlt. cbn [hd tl foldl].
      destruct (IH (S pos)) as (s & before & rest & -> & Hsplit & Hup & Hd & Hr & Ho);
        [lia|].
      eexists _, (c :: before), rest. split; [reflexivity|]. simpl.
      split_and!; [by rewrite Hsplit|by constructor|by rewrite Hd|done|done].
    + eexists _, [], (c :: drop (S pos) conns). split; [reflexivity|].
      by split_and!.
  - apply lookup_ge_None in Hc. rewrite drop_ge by done.
    eexists _, [], []. split; [reflexivity|]. by split_and!.
Qed.

(** C1, as amended: a failing send is not caught.  Whatever the handlers
    of other connections do meanwhile, [broadcast] serves connections with a
    live transport until the list is exhausted or a send raises; that
    exception leaves [broadcast], nobody is served after it, and
    [broadcast] takes nobody out of the registry: the registry afterwards is
    the one before with the handlers' changes, and the connection whose
    send failed is still in it.  When nothing else runs meanwhile, the
    message reaches exactly the connections registered before the first one
    with a dead transport, and all of them when there is none. *)
Theorem broadcast_stops_at_first_failure
    (down : list WebSocket) (m : ConnectionManager)
    (sched : list (list registry_change)) (message : json) :
  (∃ s served,
     broadcast_concurrent down m sched message = Some s
     ∧ delivered s = (λ c, (c, message)) <$> served
     ∧ Forall (λ c, c ∉ down) served
     ∧ registry s
       = foldl apply_change (active_connections m)
           (concat (take (length served) sched))
     ∧ match outcome s with
       | Ok _ => registry s !! length served = None
       | Raise e =>
           ∃ c, e = SendFailure c ∧ c ∈ down
                ∧ registry s !! length served = Some c
       end)
  ∧ (∃ s before rest,
       broadcast down m message = Some s
       ∧ active_connections m = before ++ rest
       ∧ Forall (λ c, c ∉ down) before
       ∧ delivered s = (λ c, (c, message)) <$> before
       ∧ registry s = active_connections m
       ∧ match rest with
         | [] => outcome s = Ok ()
         | c :: _ => c ∈ down ∧ outcome s = Raise (SendFailure c)
         end).
Proof.
  split.
  - unfold broadcast_concurrent.
    destruct (broadcast_iter_served
                (S (length (active_connections m) + length (newcomers sched)))
                down 0 (active_connections m) sched message)
      as (s & served & Hs & Hrest); [lia|].
    by exists s, served.
  - unfold broadcast, broadcast_concurrent.
    destruct (broadcast_iter_alone
                (S (length (active_connections m)
                    + length (newcomers ([] : list (list registry_change)))))
                down 0 (active_connections m) message)
      as (s & before & rest & Hs & Hsplit & Hrest); [lia|].
    rewrite drop_0 in Hsplit. by exists s, before, rest.
Qed.

(** C1, the claim as stated fails: with connections 1, 2, 3 registered,
    the transport of 2 down and nothing else running, connection 3 gets
    nothing, connection 2 stays registered, and the failure leaves
    [broadcast]. *)
Lemma broadcast_failure_not_isolated :
  let m := {| active_connections := [1; 2; 3] |} in
  ∃ s, broadcast [2] m JNull = Some s
    ∧ (3 ∈ active_connections m) ∧ (3 ∉ [2])
    ∧ ((3, JNull) ∉ delivered s)
    ∧ (2 ∈ registry s)
    ∧ outcome s = Raise (SendFailure 2).
Proof.
  eexists. split; [reflexivity|]. simpl.
  split_and!; [by repeat constructor| | |by repeat constructor|done].
  - intros H. apply elem_of_cons in H as [H|H]; [discriminate H|].
    by apply elem_of_nil in H.
  - intros H. apply elem_of_cons in H as [H|H]; [discriminate H|].
    by apply elem_of_nil in H.
Qed.

(** ** The iterator of [broadcast] under concurrent removal *)

(** With NoDup, [list.remove] deletes at the index where the element is. *)
Lemma drop_connection_delete (l : list WebSocket) (j : nat) (ws : WebSocket) :
  NoDup l → l !! j = Some ws → drop_connection l ws = delete j l.
Proof.
  unfold drop_connection. revert j.
  induction l as [|y l IH]; intros j Hnd Hj; [done|].
  apply NoDup_cons in Hnd as [Hy Hnd]. simpl.
  destruct j as [|j]; simpl in Hj.
  - injection Hj as ->. by rewrite decide_True.
  - rewrite decide_False.
    + specialize (IH j Hnd Hj).
      destruct (list_remove ws l) as [l'|e] eqn:Hr; simpl.
      * by rewrite IH.
      * apply list_elem_of_lookup_2 in Hj.
        destruct (list_remove_present _ _ Hj) as (? & ? & _ & _ & Hr').
        by rewrite Hr in Hr'.
    + intros ->. apply Hy. by eapply list_elem_of_lookup_2.
Qed.

(** No change at all: the iterator walks the rest of the list. *)
Lemma broadcast_iter_quiet (fuel pos : nat) (conns : list WebSocket)
    (message : json) :
  length conns - pos < fuel →
  broadcast_iter fuel [] pos conns [] message
  = Some {| outcome := Ok ();
            delivered := (λ c, (c, message)) <$> drop pos conns;
            registry := conns |}.
Proof.
  revert pos. induction fuel as [|fuel IH]; intros pos Hf; [lia|].
  cbn [broadcast_iter]. destruct (conns !! pos) as [c|] eqn:Hc.
  - rewrite send_text_up by apply not_elem_of_nil. cbn [hd tl foldl].
    apply lookup_lt_Some in Hc as Hlt.
    rewrite IH by lia. simpl.
    by rewrite (drop_S _ _ _ Hc).
  - apply lookup_ge_None in Hc. by rewrite drop_ge.
Qed.

(** [k] rounds without change deliver to the next [k] connections. *)
Lemma broadcast_iter_quiet_rounds (k fuel pos : nat) (conns : list WebSocket)
    (rest : list (list registry_change)) (message : json) :
  pos + k ≤ length conns →
  broadcast_iter (k + fuel) [] pos conns (replicate k [] ++ rest) message
  = s ← broadcast_iter fuel [] (pos + k) conns rest message ;
    Some {| outcome := outcome s;
            delivered :=
              ((λ c, (c, message)) <$> take k (drop pos conns)) ++ delivered s;
            registry := registry s |}.
Proof.
  revert pos. induction k as [|k IH]; intros pos Hk.
  - simpl. rewrite Nat.add_0_r.
    by destruct (broadcast_iter fuel [] pos conns rest message) as [[]|].
  - cbn [broadcast_iter Nat.add replicate app].
    destruct (lookup_lt_is_Some_2 conns pos) as [c Hc]; [lia|].
    rewrite Hc, send_text_up by apply not_elem_of_nil. cbn [hd tl foldl].
    rewrite IH by lia.
    replace (S pos + k) with (pos + S k) by lia.
    destruct (broadcast_iter fuel [] (pos + S k) conns rest message)
      as [[]|]; simpl; [|done].
    by rewrite (drop_S _ _ _ Hc).
Qed.

(** What is left to visit after position [k] once index [j] is deleted. *)
Lemma visited_then_deleted (l : list WebSocket) (k j : nat) :
  j < length l →
  take (S k) l ++ drop (S k) (delete j l)
  = if decide (k < j) then delete j l else delete (S k) l.
Proof.
  intros Hj. rewrite (delete_take_drop l j).
  destruct (decide (k < j)) as [Hlt|Hge].
  - rewrite <-(take_drop (S k) (take j l ++ drop (S j) l)) at 2.
    f_equal. rewrite take_app_le by (rewrite length_take; lia).
    rewrite take_take. f_equal. lia.
  - rewrite (delete_take_drop l (S k)). f_equal.
    rewrite drop_app_ge by (rewrite length_take; lia).
    rewrite length_take, drop_drop. f_equal. lia.
Qed.

Lemma newcomers_one_removal (k : nat) (ws : WebSocket) :
  newcomers (replicate k [] ++ [[Disconnects ws]]) = [].
Proof. unfold newcomers. induction k as [|k IH]; [done|exact IH]. Qed.

(** C7, as amended: removal during the iteration never raises in
    [broadcast] (with every transport up the call returns normally for
    every schedule of the handlers), and a single removal has this effect:
    if the removed connection lies after the one being sent to, every other
    connection still gets the message; if it is the one being sent to or an
    earlier one, the list shifts under the iterator and the connection
    right after the current position is skipped. *)
Theorem removal_during_broadcast (conns : list WebSocket) (k j : nat)
    (ws : WebSocket) (message : json) :
  NoDup conns → conns !! j = Some ws → k < length conns →
  (∀ sched, ∃ s,
      broadcast_concurrent [] {| active_connections := conns |} sched message
      = Some s ∧ outcome s = Ok ())
  ∧ broadcast_concurrent [] {| active_connections := conns |}
      (replicate k [] ++ [[Disconnects ws]]) message
    = Some {| outcome := Ok ();
              delivered :=
                (λ c, (c, message)) <$>
                  (if decide (k < j) then delete j conns
                   else delete (S k) conns);
              registry := delete j conns |}.
Proof.
  intros Hnd Hj Hk. unfold broadcast_concurrent.
  cbn [active_connections]. split.
  - intros sched.
    destruct (broadcast_iter_total
                (S (length conns + length (newcomers sched))) [] 0 conns sched
                message)
      as (s & Hs & Hok); [lia|].
    exists s. split; [done|]. by apply Hok.
  - rewrite newcomers_one_removal. cbn [length]. rewrite Nat.add_0_r.
    replace (S (length conns)) with (k + S (length conns - k)) by lia.
    rewrite broadcast_iter_quiet_rounds by lia.
    cbn [broadcast_iter Nat.add].
    destruct (lookup_lt_is_Some_2 conns k) as [c Hc]; [lia|].
    rewrite Hc, send_text_up by apply not_elem_of_nil.
    cbn [hd tl foldl apply_change].
    rewrite (drop_connection_delete _ _ _ Hnd Hj).
    apply lookup_lt_Some in Hj as Hjlt.
    rewrite broadcast_iter_quiet
      by (rewrite length_delete by (by eexists); lia).
    simpl. f_equal. f_equal.
    rewrite drop_0.
    rewrite <-visited_then_deleted by done.
    rewrite (take_S_r _ _ _ Hc).
    rewrite !fmap_app. simpl. by rewrite <-app_assoc.
Qed.

Lemma removal_during_broadcast_witness :
  broadcast_concurrent [] {| active_connections := [1; 2; 3; 4] |}
    (replicate 1 [] ++ [[Disconnects 4]]) JNull
  = Some {| outcome := Ok ();
            delivered := [(1, JNull); (2, JNull); (3, JNull)];
            registry := [1; 2; 3] |}.
Proof.
  refine (proj2 (removal_during_broadcast [1; 2; 3; 4] 1 3 4 JNull _ _ _)).
  - repeat constructor; rewrite ?not_elem_of_cons;
      split_and?; try lia; apply not_elem_of_nil.
  - reflexivity.
  - simpl. lia.
Defined.

(** C7, the claim as stated fails: with 1, 2, 3 registered, connection 1
    disconnects while the send to connection 2 is awaited; connection 3 was
    not removed and is still registered, yet it is skipped. *)
Lemma removal_skips_next_connection :
  let s := broadcast_concurrent [] {| active_connections := [1; 2; 3] |}
             [[]; [Disconnects 1]] JNull in
  s = Some {| outcome := Ok ();
              delivered := [(1, JNull); (2, JNull)];
              registry := [2; 3] |}
  ∧ ((3 : WebSocket) ≠ 1)
  ∧ ((3 : WebSocket) ∈ [(2 : WebSocket); 3])
  ∧ ((3, JNull) ∉ [((1 : WebSocket), JNull); (2, JNull)]).
Proof.
  split_and!; [reflexivity|lia|by repeat constructor|].
  intros H. repeat (apply elem_of_cons in H as [H|H]; [discriminate H|]).
  by apply elem_of_nil in H.
Qed.

(** ** json.dumps keeps dicts apart *)

#[global] Instance json_of_inj : Inj (=) (=) json_of.
Proof. intros [] [] H; by inversion H. Qed.

Lemma json_dumps_inj (d1 d2 : dict) : json_dumps d1 = json_dumps d2 → d1 = d2.
Proof.
  unfold json_dumps. intros H. injection H as H.
  apply (inj (fmap (prod_map id json_of))) in H.
  rewrite <-(list_to_map_to_list d1), <-(list_to_map_to_list d2).
  by rewrite H.
Qed.

(** Reading a member of the message is reading the key of the dict. *)
Lemma member_json_dumps (k : string) (d : dict) :
  member k (json_dumps d) = json_of <$> d !! k.
Proof.
  unfold member, json_dumps.
  destruct (list_find _ _) as [[i [k' v']]|] eqn:Hf.
  - apply list_find_Some in Hf as (Hi & Hk & _). simpl in Hk. subst k'.
    rewrite list_lookup_fmap in Hi.
    destruct (map_to_list d !! i) as [[k0 v0]|] eqn:Hl; [|done].
    simpl in Hi. injection Hi as -> <-.
    apply list_elem_of_lookup_2, elem_of_map_to_list in Hl.
    by rewrite Hl.
  - destruct (d !! k) as [v|] eqn:Hd; [|done].
    exfalso. apply elem_of_map_to_list in Hd.
    apply list_find_None in Hf. rewrite Forall_forall in Hf.
    apply (Hf (k, json_of v)); [|done].
    by apply (list_elem_of_fmap_2 (prod_map id json_of) _ (k, v)).
Qed.

(** ** The poller *)

Lemma run_cons (ev : event) (trace : list event) (sys : System) :
  run (ev :: trace) sys = run trace (step sys ev).
Proof. done. Qed.

Lemma run_app (trace1 trace2 : list event) (sys : System) :
  run (trace1 ++ trace2) sys = run trace2 (run trace1 sys).
Proof. apply foldl_app. Qed.

Lemma poll_or_other (ev : event) :
  (∃ down, ev = PollStep down) ∨ (∀ down, ev ≠ PollStep down).
Proof. destruct ev; [by right..|left; by eexists]. Qed.

(** Only the loop touches its own state, the wire and the log. *)
Lemma step_other (sys : System) (ev : event) :
  (∀ down, ev ≠ PollStep down) →
  progress_task (step sys ev) = progress_task sys
  ∧ published (step sys ev) = published sys
  ∧ wire (step sys ev) = wire sys.
Proof.
  intros Hev. destruct ev as [ws|ws|req|d|down]; simpl.
  - done.
  - by destruct (disconnect (manager sys) ws).
  - done.
  - by destruct (hook (download_manager sys) d).
  - by destruct (Hev down).
Qed.

(** The loop touches neither the registry, nor the store, nor the
    scheduled work. *)
Lemma poll_frame (down : list WebSocket) (sys : System) :
  manager (broadcast_progress_step down sys) = manager sys
  ∧ download_manager (broadcast_progress_step down sys) = download_manager sys
  ∧ scheduled (broadcast_progress_step down sys) = scheduled sys.
Proof.
  unfold broadcast_progress_step.
  destruct (progress_task sys) as [l|l|l message pos|l|e]; try done.
  - by case_decide.
  - destruct (active_connections (manager sys) !! pos) as [c|]; [|done].
    by destruct (send_text down c).
Qed.

(** Only a write touches the store. *)
Lemma step_no_write (sys : System) (ev : event) :
  is_write ev = false →
  download_manager (step sys ev) = download_manager sys.
Proof.
  intros Hw. destruct ev as [ws|ws|req|d|down]; try done; simpl.
  - by destruct (disconnect (manager sys) ws).
  - apply poll_frame.
Qed.

Lemma observed_other (sys : System) (ev : event) (trace : list event) :
  (∀ down, ev ≠ PollStep down) →
  observed (ev :: trace) sys = observed trace (step sys ev).
Proof.
  intros Hev. destruct ev; try done. by destruct (Hev down).
Qed.

(** The stages of a turn, one by one. *)
Lemma step_test_unchanged (down : list WebSocket) (sys : System)
    (last_status : dict) :
  progress_task sys = Running last_status →
  current_status (download_manager sys) = last_status →
  broadcast_progress_step down sys = sys.
Proof.
  intros Ht Hc. unfold broadcast_progress_step. rewrite Ht.
  by rewrite decide_False by (intros H; by apply H).
Qed.

Lemma step_test_changed (down : list WebSocket) (sys : System)
    (last_status : dict) :
  progress_task sys = Running last_status →
  current_status (download_manager sys) ≠ last_status →
  broadcast_progress_step down sys = with_task sys (Sending last_status).
Proof.
  intros Ht Hc. unfold broadcast_progress_step. rewrite Ht.
  by rewrite decide_True by done.
Qed.

Lemma step_send (down : list WebSocket) (sys : System) (last_status : dict) :
  progress_task sys = Sending last_status →
  let message := json_dumps (current_status (download_manager sys)) in
  let sys' := broadcast_progress_step down sys in
  published sys' = published sys ++ [message]
  ∧ wire sys' = wire sys
  ∧ progress_task sys' = Broadcasting last_status message 0.
Proof. intros Ht. unfold broadcast_progress_step. by rewrite Ht. Qed.

Lemma step_round (down : list WebSocket) (sys : System) (last_status : dict)
    (message : json) (pos : nat) :
  progress_task sys = Broadcasting last_status message pos →
  let sys' := broadcast_progress_step down sys in
  published sys' = published sys
  ∧ match active_connections (manager sys) !! pos with
    | None => wire sys' = wire sys ∧ progress_task sys' = Copying last_status
    | Some c =>
        match send_text down c with
        | Ok _ =>
            wire sys' = wire sys ++ [(c, message)]
            ∧ progress_task sys' = Broadcasting last_status message (S pos)
        | Raise e => wire sys' = wire sys ∧ progress_task sys' = Crashed e
        end
    end.
Proof.
  intros Ht. unfold broadcast_progress_step. rewrite Ht.
  destruct (active_connections (manager sys) !! pos) as [c|]; [|done].
  by destruct (send_text down c).
Qed.

Lemma step_copy (down : list WebSocket) (sys : System) (last_status : dict) :
  progress_task sys = Copying last_status →
  broadcast_progress_step down sys
  = with_task sys (Running (current_status (download_manager sys))).
Proof. intros Ht. unfold broadcast_progress_step. by rewrite Ht. Qed.

Lemma step_crashed (down : list WebSocket) (sys : System) (e : exn) :
  progress_task sys = Crashed e → broadcast_progress_step down sys = sys.
Proof. intros Ht. unfold broadcast_progress_step. by rewrite Ht. Qed.

(** Once the task has ended nothing is read or sent any more. *)
Lemma crashed_stays (trace : list event) (sys : System) (e : exn) :
  progress_task sys = Crashed e →
  observed trace sys = []
  ∧ published (run trace sys) = published sys
  ∧ wire (run trace sys) = wire sys.
Proof.
  revert sys. induction trace as [|ev trace IH]; intros sys Hc; [done|].
  rewrite run_cons.
  destruct (poll_or_other ev) as [[down ->]|Hev'].
  - cbn [observed step]. rewrite Hc, (step_crashed down sys e Hc). by apply IH.
  - destruct (step_other sys ev Hev') as (Ht & Hp & Hw).
    rewrite observed_other by done.
    destruct (IH (step sys ev)) as (-> & -> & ->); [congruence|done].
Qed.

(** A loop at its test whose memory equals the store stays idle. *)
Lemma polls_idle (n : nat) (down : list WebSocket) (sys : System)
    (last_status : dict) :
  progress_task sys = Running last_status →
  current_status (download_manager sys) = last_status →
  run (replicate n (PollStep down)) sys = sys.
Proof.
  intros Ht Hc. induction n as [|n IH]; [done|].
  simpl replicate. rewrite run_cons. cbn [step].
  by rewrite (step_test_unchanged down sys last_status).
Qed.

(** *** Coalescing *)

Lemma coalesce_head (prev v : dict) (values : list dict) :
  head (coalesce prev values) = Some v → v ≠ prev.
Proof.
  induction values as [|a values IH]; simpl; [done|].
  destruct (decide (a = prev)); [done|].
  simpl. congruence.
Qed.

Lemma coalesce_no_repeat (prev : dict) (values : list dict) :
  no_repeat (coalesce prev values).
Proof.
  revert prev. induction values as [|a values IH]; intros prev; simpl.
  - intros i x y Hx. by rewrite lookup_nil in Hx.
  - destruct (decide (a = prev)); [apply IH|].
    intros [|i] x y Hx Hy; simpl in Hx, Hy.
    + injection Hx as <-. rewrite <-head_lookup in Hy.
      apply coalesce_head in Hy. congruence.
    + by apply (IH a i x y).
Qed.

Lemma no_repeat_fmap {A B} (f : A → B) `{!Inj (=) (=) f} (l : list A) :
  no_repeat l → no_repeat (f <$> l).
Proof.
  intros Hl i x y Hx Hy. rewrite list_lookup_fmap in Hx, Hy.
  destruct (l !! i) as [a|] eqn:Ha; [|done].
  destruct (l !! S i) as [b|] eqn:Hb; [|done].
  simpl in Hx, Hy. injection Hx as <-. injection Hy as <-.
  intros Heq. apply (inj f) in Heq. by apply (Hl i a b Ha Hb).
Qed.

#[global] Instance json_dumps_Inj : Inj (=) (=) json_dumps.
Proof. intros ??. apply json_dumps_inj. Qed.

Lemma coalesce_replicate_empty (n : nat) (values : list dict) :
  coalesce ∅ (replicate n ∅ ++ values) = coalesce ∅ values.
Proof. induction n as [|n IH]; simpl; [done|]. by rewrite decide_True. Qed.

Lemma filter_replicate_empty (n : nat) (values : list dict) :
  Forall (λ v, v ≠ ∅) values →
  filter (λ v : dict, v ≠ ∅) (replicate n ∅ ++ values) = values.
Proof.
  intros Hv. induction n as [|n IH]; simpl.
  - induction Hv as [|v vs Hne _ IH]; [done|].
    rewrite filter_cons_True by done. by rewrite IH.
  - rewrite filter_cons_False; [done|]. by intros H.
Qed.

Lemma coalesce_written (values : list dict) :
  Forall (λ v, v ≠ ∅) values →
  coalesce ∅ values = distinct_consecutive values.
Proof.
  intros [|v vs Hne _]; simpl; [done|]. by rewrite decide_False.
Qed.

(** *** The store is never emptied *)

Lemma poll_download_manager (down : list WebSocket) (sys : System) :
  download_manager (broadcast_progress_step down sys) = download_manager sys.
Proof. apply poll_frame. Qed.

Lemma hook_non_empty (self self' : DownloadManager) (d : dict) :
  hook self d = Ok self' →
  current_status self ≠ ∅ ∨ current_status self' ≠ ∅ →
  current_status self' ≠ ∅.
Proof.
  unfold hook. intros H Hor.
  destruct (subscript d "status") as [status|]; simpl in H; [|done].
  destruct (decide (status = PStr "downloading")).
  - destruct (py_strip (get_or d "_percent_str" (PStr ""))); simpl in H; [|done].
    destruct (py_strip (get_or d "_speed_str" (PStr ""))); simpl in H; [|done].
    destruct (py_strip (get_or d "_eta_str" (PStr ""))); simpl in H; [|done].
    destruct (py_basename (get_or d "filename" (PStr ""))); simpl in H; [|done].
    injection H as <-. simpl. apply insert_non_empty.
  - destruct (decide (status = PStr "finished")).
    + injection H as <-. simpl. apply insert_non_empty.
    + injection H as <-. by destruct Hor.
Qed.

Lemma step_status_non_empty (sys : System) (ev : event) :
  current_status (download_manager sys) ≠ ∅ →
  current_status (download_manager (step sys ev)) ≠ ∅.
Proof.
  intros Hne. destruct ev as [ws|ws|req|d|down]; simpl.
  - done.
  - by destruct (disconnect (manager sys) ws).
  - apply insert_non_empty.
  - destruct (hook (download_manager sys) d) as [dm|] eqn:Hh; [|done].
    simpl. eapply hook_non_empty; [done|by left].
  - by rewrite poll_download_manager.
Qed.

Lemma observed_non_empty (trace : list event) (sys : System) :
  current_status (download_manager sys) ≠ ∅ →
  Forall (λ v, v ≠ ∅) (observed trace sys).
Proof.
  revert sys. induction trace as [|ev trace IH]; intros sys Hne; [done|].
  pose proof (IH _ (step_status_non_empty sys ev Hne)) as Hrest.
  cbn [observed]. destruct ev; try done.
  destruct (progress_task sys); try done. by constructor.
Qed.

(** The tests read the empty initial value some number of times, and from
    the first write on only written values. *)
Lemma observed_empty_prefix (trace : list event) (sys : System) :
  ∃ n values,
    observed trace sys = replicate n ∅ ++ values
    ∧ Forall (λ v, v ≠ ∅) values.
Proof.
  revert sys. induction trace as [|ev trace IH]; intros sys.
  { by exists 0, []. }
  destruct (IH (step sys ev)) as (n & values & Ho & Hv).
  destruct (poll_or_other ev) as [[down ->]|Hev'].
  - cbn [observed].
    destruct (progress_task sys) as [last_status|?|? ? ?|?|e];
      try by exists n, values.
    destruct (decide (current_status (download_manager sys) = ∅)) as [->|Hne].
    + exists (S n), values. by rewrite Ho.
    + exists 0, (current_status (download_manager sys)
                   :: observed trace (step sys (PollStep down))).
      split; [done|]. constructor; [done|].
      by apply observed_non_empty, step_status_non_empty.
  - rewrite observed_other by done. by exists n, values.
Qed.

(** *** Turns that no write disturbs *)

Lemma undisturbed_published (trace : list event) (sys : System) :
  turns_undisturbed trace sys →
  between_turns (progress_task (run trace sys)) →
  published (run trace sys)
  = published sys ++ (json_dumps <$> expected sys (observed trace sys)).
Proof.
  revert sys. induction trace as [|ev trace IH]; intros sys Hu Hend.
  { simpl in *. unfold expected.
    destruct (progress_task sys); simpl; try done; by rewrite app_nil_r. }
  destruct Hu as [Hw Hu]. rewrite run_cons in *.
  rewrite (IH _ Hu Hend). clear IH Hend Hu.
  destruct (poll_or_other ev) as [[down ->]|Hev'].
  - clear Hw. cbn [observed step]. unfold expected at 2.
    destruct (progress_task sys)
      as [last_status|last_status|last_status message pos|last_status|e]
      eqn:Ht.
    + cbn [coalesce].
      destruct (decide (current_status (download_manager sys) = last_status))
        as [Heq|Hne].
      * rewrite (step_test_unchanged down sys last_status) by done.
        unfold expected. by rewrite Ht.
      * rewrite (step_test_changed down sys last_status) by done.
        unfold expected. done.
    + destruct (step_send down sys last_status Ht) as (Hp & _ & Ht').
      rewrite Hp, <-app_assoc. f_equal. unfold expected.
      by rewrite poll_download_manager, Ht'.
    + destruct (step_round down sys last_status message pos Ht) as (Hp & Hr).
      rewrite Hp. f_equal. f_equal. unfold expected.
      rewrite poll_download_manager.
      destruct (active_connections (manager sys) !! pos) as [c|].
      * destruct (send_text down c) as [[]|e]; destruct Hr as [_ Ht'];
          rewrite Ht'; [done|].
        by destruct (crashed_stays trace _ e Ht') as (-> & _ & _).
      * destruct Hr as [_ Ht']. by rewrite Ht'.
    + rewrite (step_copy down sys last_status) by done.
      unfold expected. done.
    + rewrite (step_crashed down sys e) by done.
      unfold expected. by rewrite Ht.
  - destruct (step_other sys ev Hev') as (Ht & Hp & _).
    rewrite observed_other, Hp by done. f_equal. f_equal.
    unfold expected. rewrite Ht.
    destruct (progress_task sys)
      as [last_status|last_status|last_status message pos|last_status|e]
      eqn:Hts; try done.
    + destruct (is_write ev) eqn:Hiw; [by destruct Hw|].
      by rewrite step_no_write.
    + destruct (is_write ev) eqn:Hiw; [by destruct Hw|].
      by rewrite step_no_write.
    + destruct (is_write ev) eqn:Hiw; [by destruct Hw|].
      by rewrite step_no_write.
Qed.

(** As long as no write lands inside a turn, the loop coalesces as the
    spec describes: once a run is back between turns, the messages handed to [broadcast]
    are the coalesced sequence of the values the tests read (the reads of
    the still empty store dropped, the subsequence of distinct consecutive
    values), and no two neighbours among them are equal. *)
Lemma undisturbed_turns_coalesce (trace : list event) :
  turns_undisturbed trace initial →
  between_turns (progress_task (run trace initial)) →
  let obs := observed trace initial in
  published (run trace initial) = json_dumps <$> coalesce ∅ obs
  ∧ coalesce ∅ obs = distinct_consecutive (filter (λ v : dict, v ≠ ∅) obs)
  ∧ no_repeat (published (run trace initial)).
Proof.
  intros Hu Hend obs.
  assert (published (run trace initial) = json_dumps <$> coalesce ∅ obs) as Hp
    by (by rewrite (undisturbed_published trace initial)).
  split_and!.
  - done.
  - destruct (observed_empty_prefix trace initial) as (n & values & Ho & Hv).
    unfold obs.
    rewrite Ho, coalesce_replicate_empty, filter_replicate_empty by done.
    by apply coalesce_written.
  - rewrite Hp. apply no_repeat_fmap; [apply _|apply coalesce_no_repeat].
Qed.

Lemma observed_app (trace1 trace2 : list event) (sys : System) :
  observed (trace1 ++ trace2) sys
  = observed trace1 sys ++ observed trace2 (run trace1 sys).
Proof.
  revert sys. induction trace1 as [|ev trace1 IH]; intros sys; [done|].
  rewrite run_cons. cbn [app observed].
  destruct ev; try apply IH.
  destruct (progress_task sys); try apply IH.
  by rewrite IH.
Qed.

Lemma observed_idle (n : nat) (down : list WebSocket) (sys : System)
    (last_status : dict) :
  progress_task sys = Running last_status →
  current_status (download_manager sys) = last_status →
  observed (replicate n (PollStep down)) sys = replicate n last_status.
Proof.
  intros Ht Hc. induction n as [|n IH]; [done|].
  cbn [replicate observed step]. rewrite Ht.
  rewrite (step_test_unchanged down sys last_status) by done.
  by rewrite IH, Hc.
Qed.

Lemma coalesce_cons_ne (prev v : dict) (values : list dict) :
  v ≠ prev → coalesce prev (v :: values) = v :: coalesce v values.
Proof. intros H. simpl. by rewrite decide_False. Qed.

Lemma coalesce_same (prev : dict) (n : nat) :
  coalesce prev (replicate n prev) = [].
Proof. induction n as [|n IH]; simpl; [done|]. by rewrite decide_True. Qed.

(** C2, where the code departs from it: the copy on the line after the
    awaited [broadcast] reads the store again.  Connection 1 is listening;
    the status of a download is broadcast (test, [json.dumps], the send
    to connection 1, the end of the list, the copy); while the send of the
    progress report to connection 1 is awaited the worker thread writes
    the finished status; the loop then takes the finished status as its
    memory without having sent it, and never sends it: three distinct
    consecutive values are read by the tests, two are broadcast. *)
Theorem finished_status_never_broadcast :
  let req := {| req_url := "https://example.com/v"; req_format_id := "best" |} in
  let report : dict :=
    dict_of [ ("status", PStr "downloading"); ("_percent_str", PStr "100%");
              ("_speed_str", PStr "1.2MiB/s"); ("_eta_str", PStr "00:00");
              ("filename", PStr "clip.mp4") ] in
  let done_report : dict :=
    dict_of [ ("status", PStr "finished"); ("filename", PStr "clip.mp4") ] in
  let starting : dict := dict_of [("status", PStr "starting")] in
  let downloading : dict :=
    dict_of [ ("status", PStr "downloading"); ("percent", PStr "100%");
              ("speed", PStr "1.2MiB/s"); ("eta", PStr "00:00");
              ("filename", PStr "clip.mp4") ] in
  let finished : dict :=
    dict_of [ ("status", PStr "finished"); ("filename", PStr "clip.mp4") ] in
  let trace :=
    [ WsConnect 1; PostDownload req;
      PollStep []; PollStep []; PollStep []; PollStep []; PollStep [];
      ProgressHook report;
      PollStep []; PollStep []; PollStep [];
      ProgressHook done_report;
      PollStep []; PollStep [] ] in
  ∀ n,
    let later := trace ++ replicate (S n) (PollStep []) in
    current_status (download_manager (run later initial)) = finished
    ∧ progress_task (run later initial) = Running finished
    ∧ published (run later initial)
      = [json_dumps starting; json_dumps downloading]
    ∧ wire (run later initial)
      = [(1, json_dumps starting); (1, json_dumps downloading)]
    ∧ coalesce ∅ (observed later initial) = [starting; downloading; finished]
    ∧ published (run later initial)
      ≠ json_dumps <$> coalesce ∅ (observed later initial).
Proof.
  intros req report done_report starting downloading finished trace n later.
  assert (run trace initial
          = {| manager := {| active_connections := [1] |};
               download_manager := {| current_status := finished |};
               progress_task := Running finished;
               scheduled := [run_download "https://example.com/v" "best"];
               wire := [(1, json_dumps starting); (1, json_dumps downloading)];
               published := [json_dumps starting; json_dumps downloading] |})
    as Hrun by (vm_compute; reflexivity).
  assert (run later initial = run trace initial) as Hlater.
  { unfold later. rewrite run_app.
    apply (polls_idle (S n) [] _ finished); by rewrite Hrun. }
  assert (coalesce ∅ (observed later initial)
          = [starting; downloading; finished]) as Hobs.
  { unfold later. rewrite observed_app.
    assert (observed trace initial = [starting; downloading]) as ->
      by (vm_compute; reflexivity).
    rewrite (observed_idle (S n) [] _ finished) by (by rewrite Hrun).
    cbn [app replicate].
    rewrite !coalesce_cons_ne, coalesce_same; [done|..].
    - intros H. apply (f_equal (λ m : dict, m !! "status")) in H.
      vm_compute in H. discriminate H.
    - intros H. apply (f_equal (λ m : dict, m !! "status")) in H.
      vm_compute in H. discriminate H.
    - apply insert_non_empty. }
  rewrite Hlater, Hrun, Hobs. cbn [download_manager current_status
    progress_task published wire]. split_and!; try reflexivity.
  intros H. apply (f_equal length) in H. discriminate H.
Qed.

(** ** Before the first write *)

Lemma step_untouched (sys : System) (ev : event) :
  is_write ev = false → untouched sys → untouched (step sys ev).
Proof.
  intros Hw (Hc & Ht & Hp & Hwire).
  destruct ev as [ws|ws|req|d|down]; try done; simpl.
  - by destruct (disconnect (manager sys) ws).
  - by rewrite (step_test_unchanged down sys ∅).
Qed.

(** C10: as long as no [/download] call and no progress-hook call has
    happened, the loop broadcasts nothing, however often it runs and
    whoever connects or disconnects: the store starts as the empty dict, the
    memory of the loop starts as the empty dict, and the test for a change
    is false every time. *)
Theorem no_broadcast_before_first_write (trace : list event) :
  Forall (λ ev, is_write ev = false) trace →
  current_status (download_manager initial) = ∅
  ∧ progress_task initial = Running ∅
  ∧ published (run trace initial) = []
  ∧ wire (run trace initial) = []
  ∧ progress_task (run trace initial) = Running ∅.
Proof.
  intros Hq.
  assert (untouched (run trace initial)) as (_ & Ht & Hp & Hw).
  { assert (untouched initial) as Hi by done.
    revert Hi. generalize initial.
    induction Hq as [|ev trace Hev _ IH]; intros sys Hi; [done|].
    rewrite run_cons. by apply IH, step_untouched. }
  done.
Qed.

Lemma no_broadcast_before_first_write_witness :
  published (run [WsConnect 1; PollStep []; WsConnect 2; PollStep [1];
                  WsDisconnect 1; PollStep []] initial) = []
  ∧ wire (run [WsConnect 1; PollStep []; WsConnect 2; PollStep [1];
               WsDisconnect 1; PollStep []] initial) = [].
Proof.
  pose proof (no_broadcast_before_first_write
    [WsConnect 1; PollStep []; WsConnect 2; PollStep [1];
     WsDisconnect 1; PollStep []]) as H.
  destruct H as (_ & _ & Hp & Hw & _).
  - repeat constructor.
  - by split.
Defined.

(** ** /download *)

Lemma scheduled_run (trace : list event) (sys : System) :
  ∃ more, scheduled (run trace sys) = scheduled sys ++ more.
Proof.
  revert sys. induction trace as [|ev trace IH]; intros sys.
  { exists []. simpl. by rewrite app_nil_r. }
  rewrite run_cons. destruct (IH (step sys ev)) as (more & ->).
  destruct ev as [ws|ws|req|d|down]; simpl.
  - by exists more.
  - exists more. by destruct (disconnect (manager sys) ws).
  - eexists. unfold add_task. by rewrite <-app_assoc.
  - exists more. by destruct (hook (download_manager sys) d).
  - exists more. f_equal. apply poll_frame.
Qed.

(** C5: [start_download] returns its acknowledgement at once, whatever the
    state (also while an earlier job runs), and has done two things: the
    status slot holds the starting status, and [run_download] with the
    request's arguments has been appended to the background tasks, not run.
    Registry, poller, wire and log are as before.  A later call overwrites
    the slot again, and the job scheduled first is still scheduled. *)
Theorem start_download_resets_and_schedules
    (sys : System) (req : DownloadRequest) :
  let job := run_download (req_url req) (req_format_id req) in
  let sys' := step sys (PostDownload req) in
  start_download (download_manager sys) req (scheduled sys)
  = ({| current_status := {["status" := PStr "starting"]} |},
     scheduled sys ++ [job],
     {["message" := PStr "Download started"]})
  ∧ current_status (download_manager sys') = {["status" := PStr "starting"]}
  ∧ scheduled sys' = scheduled sys ++ [job]
  ∧ manager sys' = manager sys
  ∧ progress_task sys' = progress_task sys
  ∧ wire sys' = wire sys
  ∧ published sys' = published sys
  ∧ (∀ trace req2,
       let sys2 := step (run trace sys') (PostDownload req2) in
       current_status (download_manager sys2) = {["status" := PStr "starting"]}
       ∧ job ∈ scheduled sys2
       ∧ run_download (req_url req2) (req_format_id req2) ∈ scheduled sys2).
Proof.
  intros job sys'. split_and!; try done.
  intros trace req2. simpl. split_and!; [done| |].
  - destruct (scheduled_run trace sys') as (more & ->).
    unfold add_task. simpl. unfold add_task.
    rewrite !elem_of_app, !list_elem_of_singleton. by left; left; right.
  - unfold add_task. rewrite elem_of_app, list_elem_of_singleton. by right.
Qed.

(** ** Strings: strip and basename *)

Lemma chars_inj (s1 s2 : string) : chars s1 = chars s2 → s1 = s2.
Proof.
  revert s2. induction s1 as [|a s1 IH]; intros [|b s2] H; try done.
  simpl in H. injection H as -> H. by rewrite (IH _ H).
Qed.

Lemma chars_app (s1 s2 : string) : chars (s1 +:+ s2) = chars s1 ++ chars s2.
Proof. induction s1 as [|a s1 IH]; simpl; [done|]. by rewrite IH. Qed.

Lemma chars_string_of_list (l : list ascii) :
  chars (string_of_list_ascii l) = l.
Proof. induction l as [|a l IH]; simpl; [done|]. by rewrite IH. Qed.

Lemma string_of_list_chars (s : string) : string_of_list_ascii (chars s) = s.
Proof. apply chars_inj, chars_string_of_list. Qed.

(** Every white space character takes at least one byte. *)
Lemma whitespace_length (w : list ascii) : w ∈ whitespace → 0 < length w.
Proof.
  revert w. apply Forall_forall. unfold whitespace. simpl.
  repeat constructor.
Qed.

Lemma leading_space_Some (l w : list ascii) :
  leading_space l = Some w → w ∈ whitespace ∧ w `prefix_of` l.
Proof.
  unfold leading_space.
  destruct (list_find _ _) as [[i w']|] eqn:Hf; [|done].
  intros H. injection H as ->.
  apply list_find_Some in Hf as (Hi & Hp & _).
  split; [by eapply list_elem_of_lookup_2|done].
Qed.

Lemma leading_space_None (l : list ascii) :
  leading_space l = None ↔ ∀ w, w ∈ whitespace → ¬ w `prefix_of` l.
Proof.
  unfold leading_space.
  destruct (list_find _ _) as [[i w']|] eqn:Hf.
  - apply list_find_Some in Hf as (Hi & Hp & _).
    split; [done|]. intros H. destruct (H w'); [|done].
    by eapply list_elem_of_lookup_2.
  - apply list_find_None in Hf. rewrite Forall_forall in Hf. by split.
Qed.

Lemma trailing_space_Some (l w : list ascii) :
  trailing_space l = Some w → w ∈ whitespace ∧ w `suffix_of` l.
Proof.
  unfold trailing_space.
  destruct (list_find _ _) as [[i w']|] eqn:Hf; [|done].
  intros H. injection H as ->.
  apply list_find_Some in Hf as (Hi & Hp & _).
  split; [by eapply list_elem_of_lookup_2|done].
Qed.

Lemma trailing_space_None (l : list ascii) :
  trailing_space l = None ↔ ∀ w, w ∈ whitespace → ¬ w `suffix_of` l.
Proof.
  unfold trailing_space.
  destruct (list_find _ _) as [[i w']|] eqn:Hf.
  - apply list_find_Some in Hf as (Hi & Hp & _).
    split; [done|]. intros H. destruct (H w'); [|done].
    by eapply list_elem_of_lookup_2.
  - apply list_find_None in Hf. rewrite Forall_forall in Hf. by split.
Qed.

Lemma blank_one (w : list ascii) : w ∈ whitespace → blank w.
Proof.
  intros Hw. rewrite <-(app_nil_r w). apply blank_cons; [done|constructor].
Qed.

Lemma blank_app (l1 l2 : list ascii) : blank l1 → blank l2 → blank (l1 ++ l2).
Proof.
  induction 1 as [|w l Hw _ IH]; intros H2; [done|].
  rewrite <-app_assoc. apply blank_cons; [done|by apply IH].
Qed.

(** [lstrip] takes a run of white space off the front and leaves no white
    space there. *)
Lemma lstrip_spec (fuel : nat) (l : list ascii) :
  length l ≤ fuel →
  ∃ pre, l = pre ++ lstrip fuel l ∧ blank pre
         ∧ leading_space (lstrip fuel l) = None.
Proof.
  revert l. induction fuel as [|fuel IH]; intros l Hlen.
  - destruct l; [|simpl in Hlen; lia]. exists []. simpl.
    split_and!; [done|constructor|done].
  - cbn [lstrip]. destruct (leading_space l) as [w|] eqn:Hw.
    + apply leading_space_Some in Hw as [Hw [k ->]].
      pose proof (whitespace_length w Hw) as Hpos.
      rewrite drop_app_length.
      destruct (IH k) as (pre & Hk & Hb & Hnone).
      { rewrite length_app in Hlen. lia. }
      exists (w ++ pre). split_and!; [|by apply blank_cons|done].
      rewrite <-app_assoc. by rewrite <-Hk.
    + exists []. split_and!; [done|constructor|done].
Qed.

(** [rstrip] takes a run of white space off the end and leaves no white
    space there. *)
Lemma rstrip_spec (fuel : nat) (l : list ascii) :
  length l ≤ fuel →
  ∃ suf, l = rstrip fuel l ++ suf ∧ blank suf
         ∧ trailing_space (rstrip fuel l) = None.
Proof.
  revert l. induction fuel as [|fuel IH]; intros l Hlen.
  - destruct l; [|simpl in Hlen; lia]. exists []. simpl.
    split_and!; [done|constructor|done].
  - cbn [rstrip]. destruct (trailing_space l) as [w|] eqn:Hw.
    + apply trailing_space_Some in Hw as [Hw [k ->]].
      pose proof (whitespace_length w Hw) as Hpos.
      rewrite length_app, Nat.add_sub, take_app_length.
      destruct (IH k) as (suf & Hk & Hb & Hnone).
      { rewrite length_app in Hlen. lia. }
      exists (suf ++ w). split_and!; [|by apply blank_app, blank_one|done].
      rewrite app_assoc. by rewrite <-Hk.
    + exists []. split_and!; [by rewrite app_nil_r|constructor|done].
Qed.

(** What [strip] returns is the string without the white space around it. *)
Lemma strip_stripped_of (s : string) : stripped_of s (strip s).
Proof.
  unfold stripped_of, strip. cbv zeta. rewrite chars_string_of_list.
  destruct (lstrip_spec (length (chars s)) (chars s)) as (pre & Hs & Hpre & Hl);
    [done|].
  remember (lstrip (length (chars s)) (chars s)) as t1 eqn:Ht1.
  destruct (rstrip_spec (length t1) t1) as (suf & Ht & Hsuf & Hr); [done|].
  remember (rstrip (length t1) t1) as t2 eqn:Ht2.
  exists pre, suf. split_and!; [by rewrite <-Ht|done|done|].
  unfold trimmed. rewrite chars_string_of_list. intros w Hw. split.
  - intros Hp. rewrite leading_space_None in Hl.
    apply (Hl w Hw). rewrite Ht. by apply prefix_app_r.
  - rewrite trailing_space_None in Hr. by apply Hr.
Qed.

(** A string with no white space at either end is left as it is. *)
Lemma strip_id (s : string) : trimmed s → strip s = s.
Proof.
  intros Ht. unfold strip. cbv zeta.
  assert (leading_space (chars s) = None) as Hl
    by (apply leading_space_None; intros w Hw; by apply Ht).
  assert (trailing_space (chars s) = None) as Hr
    by (apply trailing_space_None; intros w Hw; by apply Ht).
  assert (∀ fuel, lstrip fuel (chars s) = chars s) as ->
    by (intros [|fuel]; simpl; by rewrite ?Hl).
  assert (∀ fuel, rstrip fuel (chars s) = chars s) as ->
    by (intros [|fuel]; simpl; by rewrite ?Hr).
  apply string_of_list_chars.
Qed.

Lemma stripped_of_trimmed (s t : string) : stripped_of s t → trimmed t.
Proof. by intros (_ & _ & _ & _ & _ & H). Qed.

Lemma has_slash_app (a b : string) :
  has_slash (a +:+ b) = has_slash a || has_slash b.
Proof.
  induction a as [|c a IH]; simpl; [done|]. by destruct (decide (c = "/"%char)).
Qed.

Lemma basename_no_slash (p : string) : has_slash (basename p) = false.
Proof.
  induction p as [|c p IH]; [done|].
  cbn [basename]. by destruct (has_slash (String c p)) eqn:H.
Qed.

Lemma basename_id (p : string) : has_slash p = false → basename p = p.
Proof. destruct p as [|c p]; [done|]. cbn [basename]. by intros ->. Qed.

Lemma basename_after_slash (a name : string) :
  has_slash name = false → basename (a +:+ String "/" name) = name.
Proof.
  intros Hn. induction a as [|c a IH].
  - simpl. by apply basename_id.
  - simpl. destruct (decide (c = "/"%char)); [done|].
    rewrite has_slash_app. simpl. by rewrite orb_true_r.
Qed.

(** What [basename] returns is the last component of the path. *)
Lemma basename_base_of (p : string) : base_of p (basename p).
Proof.
  split; [apply basename_no_slash|].
  induction p as [|c p (dir & Hp & Hdir)]; [by exists ""; split; [|left]|].
  cbn [basename]. destruct (has_slash (String c p)) eqn:Hs.
  - exists (String c dir).
    split; [change (String c p = String c (dir +:+ basename p)); by f_equal|].
    right.
    destruct Hdir as [->|[dir' ->]].
    + change (p = basename p) in Hp. simpl in Hs.
      destruct (decide (c = "/"%char)) as [->|_]; [by exists ""|].
      rewrite Hp, basename_no_slash in Hs. done.
    + by exists (String c dir').
  - exists "". by split; [|left].
Qed.

(** ** hook *)

Lemma py_strip_field (d : dict) (k : string) :
  str_or_missing d k →
  py_strip (get_or d k (PStr "")) = Ok (PStr (strip (field d k))).
Proof.
  unfold str_or_missing, get_or, field.
  by destruct (d !! k) as [[| |]|].
Qed.

Lemma py_basename_field (d : dict) (k : string) :
  str_or_missing d k →
  py_basename (get_or d k (PStr "")) = Ok (PStr (basename (field d k))).
Proof.
  unfold str_or_missing, get_or, field.
  by destruct (d !! k) as [[| |]|].
Qed.

Lemma py_strip_not_str (d : dict) (k : string) :
  ¬ str_or_missing d k →
  ∃ m, py_strip (get_or d k (PStr "")) = Raise (AttributeError m).
Proof.
  unfold str_or_missing, get_or.
  destruct (d !! k) as [[| |]|]; simpl; intros H; try (by destruct H);
    by eexists.
Qed.

Lemma py_basename_not_str (d : dict) (k : string) :
  ¬ str_or_missing d k →
  ∃ m, py_basename (get_or d k (PStr "")) = Raise (TypeError m).
Proof.
  unfold str_or_missing, get_or.
  destruct (d !! k) as [[| |]|]; simpl; intros H; try (by destruct H);
    by eexists.
Qed.

Lemma str_or_missing_dec (d : dict) (k : string) :
  str_or_missing d k ∨ ¬ str_or_missing d k.
Proof.
  unfold str_or_missing. destruct (d !! k) as [[| |]|]; auto.
Qed.

(** How [hook] ends on any report. *)
Lemma hook_cases (self : DownloadManager) (d : dict) :
  (report_ok d ∧ ∃ self', hook self d = Ok self')
  ∨ (¬ report_ok d
     ∧ ((d !! "status" = None ∧ hook self d = Raise (KeyError "status"))
        ∨ (d !! "status" = Some (PStr "downloading")
           ∧ ∃ m, hook self d = Raise (AttributeError m)
                  ∨ hook self d = Raise (TypeError m)))).
Proof.
  unfold report_ok, hook, subscript.
  destruct (d !! "status") as [status|] eqn:Hst; simpl.
  2:{ right. split; [by intros [[? ?] _]|]. by left. }
  destruct (decide (status = PStr "downloading")) as [->|Hdl].
  2:{ left. split; [split; [by eexists|intros H; congruence]|].
      destruct (decide (status = PStr "finished")); by eexists. }
  destruct (str_or_missing_dec d "_percent_str") as [Hp|Hp].
  2:{ right. split; [by intros [_ H]; destruct (H eq_refl) as (? & _)|].
      right. split; [done|].
      destruct (py_strip_not_str d _ Hp) as [m ->]. exists m. by left. }
  rewrite (py_strip_field d _ Hp). simpl.
  destruct (str_or_missing_dec d "_speed_str") as [Hs|Hs].
  2:{ right. split; [by intros [_ H]; destruct (H eq_refl) as (? & ? & _)|].
      right. split; [done|].
      destruct (py_strip_not_str d _ Hs) as [m ->]. exists m. by left. }
  rewrite (py_strip_field d _ Hs). simpl.
  destruct (str_or_missing_dec d "_eta_str") as [He|He].
  2:{ right. split; [by intros [_ H]; destruct (H eq_refl) as (? & ? & ? & _)|].
      right. split; [done|].
      destruct (py_strip_not_str d _ He) as [m ->]. exists m. by left. }
  rewrite (py_strip_field d _ He). simpl.
  destruct (str_or_missing_dec d "filename") as [Hf|Hf].
  2:{ right. split; [by intros [_ H]; destruct (H eq_refl) as (? & ? & ? & ?)|].
      right. split; [done|].
      destruct (py_basename_not_str d _ Hf) as [m ->]. exists m. by right. }
  rewrite (py_basename_field d _ Hf). simpl.
  left. split; [|by eexists]. split; [by eexists|done].
Qed.

(** What [hook] stores for a downloading report that it takes. *)
Lemma hook_downloading (self : DownloadManager) (d : dict) :
  d !! "status" = Some (PStr "downloading") →
  report_ok d →
  hook self d
  = Ok {| current_status :=
            dict_of [ ("status", PStr "downloading");
                      ("percent", PStr (strip (field d "_percent_str")));
                      ("speed", PStr (strip (field d "_speed_str")));
                      ("eta", PStr (strip (field d "_eta_str")));
                      ("filename", PStr (basename (field d "filename"))) ] |}.
Proof.
  intros Hst [_ Hok]. destruct (Hok Hst) as (Hp & Hs & He & Hf).
  unfold hook, subscript. rewrite Hst. simpl.
  by rewrite (py_strip_field d _ Hp), (py_strip_field d _ Hs),
    (py_strip_field d _ He), (py_basename_field d _ Hf).
Qed.

Lemma hook_finished (self : DownloadManager) (d : dict) :
  d !! "status" = Some (PStr "finished") →
  hook self d
  = Ok {| current_status :=
            dict_of [ ("status", PStr "finished");
                      ("filename", get d "filename") ] |}.
Proof. intros Hst. unfold hook, subscript. by rewrite Hst. Qed.

Lemma hook_other (self : DownloadManager) (d : dict) (status : pyval) :
  d !! "status" = Some status →
  status ≠ PStr "downloading" → status ≠ PStr "finished" →
  hook self d = Ok self.
Proof.
  intros Hst Hdl Hfin. unfold hook, subscript. rewrite Hst. simpl.
  by rewrite !decide_False.
Qed.

(** A report that [hook] takes leaves the store as it was or puts a
    written status there. *)
Lemma hook_written (self self' : DownloadManager) (d : dict) :
  hook self d = Ok self' →
  self' = self ∨ written [ProgressHook d] (current_status self').
Proof.
  intros H.
  destruct (hook_cases self d) as [[Hok _]|[_ [[_ Hr]|[_ [m [Hr|Hr]]]]]];
    try congruence.
  pose proof Hok as [[status Hst] _].
  destruct (decide (status = PStr "downloading")) as [->|Hdl].
  - right. rewrite (hook_downloading self d Hst Hok) in H. injection H as <-.
    simpl. apply (written_downloading _ d); try done.
    + apply list_elem_of_singleton. done.
    + apply strip_stripped_of.
    + apply strip_stripped_of.
    + apply strip_stripped_of.
    + apply basename_base_of.
  - destruct (decide (status = PStr "finished")) as [->|Hfin].
    + right. rewrite (hook_finished self d Hst) in H. injection H as <-.
      simpl. apply (written_finished _ d); [|done].
      apply list_elem_of_singleton. done.
    + left. rewrite (hook_other self d status Hst Hdl Hfin) in H.
      by injection H as <-.
Qed.

(** ** What goes over the wire *)

Lemma written_mono (hist hist' : list event) (d : dict) :
  (∀ ev, ev ∈ hist → ev ∈ hist') → written hist d → written hist' d.
Proof.
  intros Hsub [req Hin|report p s e f Hin Hst Hok Hp Hs He Hf|report Hin Hst].
  - apply (written_starting _ req). by apply Hsub.
  - apply (written_downloading _ report); try done. by apply Hsub.
  - apply (written_finished _ report); [|done]. by apply Hsub.
Qed.

Lemma written_shape (hist : list event) (d : dict) :
  written hist d → status_shape d.
Proof. intros []; constructor. Qed.

Lemma status_shape_non_empty (d : dict) : status_shape d → d ≠ ∅.
Proof. intros []; apply insert_non_empty. Qed.

Lemma written_non_empty (hist : list event) (d : dict) : written hist d → d ≠ ∅.
Proof. intros H. by eapply status_shape_non_empty, written_shape. Qed.

Lemma wire_ok_mono (hist hist' : list event) (sys sys' : System) :
  (∀ ev, ev ∈ hist → ev ∈ hist') →
  download_manager sys' = download_manager sys →
  progress_task sys' = progress_task sys →
  wire sys' = wire sys →
  wire_ok hist sys → wire_ok hist' sys'.
Proof.
  intros Hsub Hd Ht Hw (Hs & He & Hb & Hwire).
  unfold wire_ok. rewrite Hd, Ht, Hw. split_and!.
  - destruct Hs as [?|Hs]; [by left|right]. by eapply written_mono.
  - done.
  - intros l m pos Hbr. destruct (Hb l m pos Hbr) as (d & -> & Hd').
    exists d. split; [done|]. by eapply written_mono.
  - eapply Forall_impl; [exact Hwire|].
    intros x (d & Hx & Hd'). exists d. split; [done|]. by eapply written_mono.
Qed.

Lemma step_wire_ok (hist : list event) (sys : System) (ev : event) :
  wire_ok hist sys → wire_ok (hist ++ [ev]) (step sys ev).
Proof.
  intros Hok.
  assert (∀ x, x ∈ hist → x ∈ hist ++ [ev]) as Hsub
    by (intros x Hx; apply elem_of_app; by left).
  assert (ev ∈ hist ++ [ev]) as Hev
    by (apply elem_of_app; right; by apply list_elem_of_singleton).
  pose proof (wire_ok_mono hist (hist ++ [ev]) sys sys Hsub eq_refl eq_refl
                eq_refl Hok) as Hok'.
  clear Hok. pose proof Hok' as (Hs & He & Hb & Hw).
  destruct ev as [ws|ws|req|d|down]; simpl.
  - done.
  - by destruct (disconnect (manager sys) ws).
  - split_and!; simpl; [right; by eapply written_starting| |done|done].
    intros H. destruct (status_shape_non_empty _ shape_starting H).
  - destruct (hook (download_manager sys) d) as [dm|] eqn:Hh; [|done].
    destruct (hook_written _ _ _ Hh) as [->|Hwr]; [done|].
    assert (written (hist ++ [ProgressHook d]) (current_status dm)) as Hwr'.
    { eapply written_mono; [|exact Hwr]. intros x Hx.
      apply list_elem_of_singleton in Hx as ->. done. }
    split_and!; simpl; [by right| |done|done].
    intros H. by apply written_non_empty in Hwr'.
  - assert (current_status (download_manager sys) = ∅ →
            ∀ t, progress_task sys = t →
                 (∀ l, t ≠ Running l) → (∀ e, t ≠ Crashed e) → False) as Habs.
    { intros Hempty t Ht Hr Hc. destruct (He Hempty) as [Hr'|[e Hc']].
      - apply (Hr ∅). congruence.
      - apply (Hc e). congruence. }
    destruct (progress_task sys)
      as [last_status|last_status|last_status message pos|last_status|e]
      eqn:Ht in |- *.
    + destruct (decide (current_status (download_manager sys) = last_status))
        as [Heq|Hne].
      * by rewrite (step_test_unchanged down sys last_status).
      * rewrite (step_test_changed down sys last_status) by done.
        split_and!; simpl; [done| |done|done].
        intros Hempty. destruct (He Hempty) as [Hr|[e' Hc]]; [|congruence].
        rewrite Ht in Hr. injection Hr as Hr. destruct Hne. congruence.
    + destruct (step_send down sys last_status Ht) as (_ & Hwire & Ht').
      assert (written (hist ++ [PollStep down])
                (current_status (download_manager sys))) as Hcur.
      { destruct Hs as [Hempty|]; [|done].
        by destruct (Habs Hempty _ Ht). }
      unfold wire_ok. rewrite poll_download_manager, Hwire, Ht'.
      split_and!; [by right| |
        intros l m p [= <- <- <-]; by eexists|done].
      intros H. by apply written_non_empty in Hcur.
    + destruct (step_round down sys last_status message pos Ht) as (_ & Hr).
      destruct (Hb _ _ _ Ht) as (d & Hm & Hd).
      assert (current_status (download_manager sys) ≠ ∅) as Hne.
      { intros Hempty. by destruct (Habs Hempty _ Ht). }
      unfold wire_ok. rewrite poll_download_manager.
      destruct (active_connections (manager sys) !! pos) as [c|].
      * destruct (send_text down c) as [[]|e]; destruct Hr as [-> ->].
        -- split_and!; [done|done|intros l m p [= <- <- <-]; by eexists|].
           apply Forall_app. split; [done|]. constructor; [|done].
           by exists d.
        -- split_and!; [done|done|done|done].
      * destruct Hr as [-> ->]. by split_and!.
    + rewrite (step_copy down sys last_status) by done.
      split_and!; simpl; [done| |done|done].
      intros ->. by left.
    + by rewrite (step_crashed down sys e).
Qed.

Lemma run_wire_ok (trace hist : list event) (sys : System) :
  wire_ok hist sys → wire_ok (hist ++ trace) (run trace sys).
Proof.
  revert hist sys. induction trace as [|ev trace IH]; intros hist sys H.
  - by rewrite app_nil_r.
  - rewrite run_cons, (cons_middle ev hist trace), app_assoc.
    by apply IH, step_wire_ok.
Qed.

Lemma wire_ok_initial : wire_ok [] initial.
Proof. split_and!; [by left|by left|done|by constructor]. Qed.

(** C6, as amended: every message pushed to a connection is the JSON
    object of a status that the code wrote while the trace ran: the
    starting status of a [/download] call; for a downloading report that
    [hook] took, the fields [percent], [speed] and [eta], which are the
    report's [_percent_str], [_speed_str] and [_eta_str] without the white
    space around them (nothing else is taken away, so the percent sign
    stays), the field [filename], which is the last path component of the
    report's file name, and no field [percentage]; or, for a finished
    report, the report's file name as it is.  Each member of the message
    is the value under that key in the status. *)
Theorem pushed_messages_have_status_shape (trace : list event)
    (ws : WebSocket) (msg : json) :
  (ws, msg) ∈ wire (run trace initial) →
  ∃ d, msg = json_dumps d
     ∧ written trace d
     ∧ status_shape d
     ∧ (∀ k, member k msg = json_of <$> d !! k)
     ∧ (member "status" msg = Some (JString "downloading") →
          member "percentage" msg = None
          ∧ ∃ report percent speed eta filename,
              ProgressHook report ∈ trace
              ∧ report !! "status" = Some (PStr "downloading")
              ∧ member "percent" msg = Some (JString percent)
              ∧ member "speed" msg = Some (JString speed)
              ∧ member "eta" msg = Some (JString eta)
              ∧ member "filename" msg = Some (JString filename)
              ∧ stripped_of (field report "_percent_str") percent
              ∧ stripped_of (field report "_speed_str") speed
              ∧ stripped_of (field report "_eta_str") eta
              ∧ base_of (field report "filename") filename).
Proof.
  intros Hin.
  destruct (run_wire_ok trace [] initial wire_ok_initial) as (_ & _ & _ & Hw).
  rewrite Forall_forall in Hw.
  destruct (Hw _ Hin) as (d & Hmsg & Hwr). simpl in Hmsg, Hwr. subst msg.
  exists d.
  split_and!; [done|done|by eapply written_shape|
               intros k; apply member_json_dumps|].
  rewrite !member_json_dumps.
  destruct Hwr as [req Hreq|report percent speed eta filename Hr Hst Hok Hp Hs
                   He Hf|report Hr Hst]; intros Hstatus;
    [vm_compute in Hstatus; discriminate Hstatus|
     |vm_compute in Hstatus; discriminate Hstatus].
  split; [reflexivity|].
  exists report, percent, speed, eta, filename.
  split_and!; try done; reflexivity.
Qed.

Lemma pushed_messages_have_status_shape_witness :
  let report : dict :=
    dict_of [ ("status", PStr "downloading");
              ("_percent_str", PStr " 45.3%");
              ("_speed_str", PStr "1.2MiB/s");
              ("_eta_str", PStr "00:10");
              ("filename", PStr "/tmp/out/clip.mp4") ] in
  let stored : dict :=
    dict_of [ ("status", PStr "downloading"); ("percent", PStr "45.3%");
              ("speed", PStr "1.2MiB/s"); ("eta", PStr "00:10");
              ("filename", PStr "clip.mp4") ] in
  let trace :=
    [WsConnect 1; ProgressHook report; PollStep []; PollStep []; PollStep []] in
  ∃ d, json_dumps stored = json_dumps d ∧ written trace d.
Proof.
  intros report stored trace.
  destruct (pushed_messages_have_status_shape trace 1 (json_dumps stored))
    as (d & Hd & Hw & _).
  - vm_compute. left.
  - exists d. split; [exact Hd|exact Hw].
Defined.

(** C6, the claim as stated fails: a progress report of the collaborator,
    pushed to connection 1, has no field [percentage]; its percent field is
    named [percent] and still carries the percent sign. *)
Lemma downloading_message_lacks_percentage :
  let report : dict :=
    dict_of [ ("status", PStr "downloading");
              ("_percent_str", PStr " 45.3%");
              ("_speed_str", PStr "1.2MiB/s");
              ("_eta_str", PStr "00:10");
              ("filename", PStr "/mnt/c/Users/lucky/Desktop/TubeDownloads/clip.mp4") ] in
  ∃ msg,
    wire (run [WsConnect 1; ProgressHook report;
               PollStep []; PollStep []; PollStep []] initial)
    = [(1, msg)]
    ∧ member "status" msg = Some (JString "downloading")
    ∧ member "percentage" msg = None
    ∧ member "percent" msg = Some (JString "45.3%").
Proof.
  exists (json_dumps (dict_of [ ("status", PStr "downloading");
                                ("percent", PStr "45.3%");
                                ("speed", PStr "1.2MiB/s");
                                ("eta", PStr "00:10");
                                ("filename", PStr "clip.mp4") ])).
  vm_compute. split_and!; reflexivity.
Qed.

(** ** The sort of [get_info] *)

Lemma insert_desc_perm (e : FormatEntry) (l : list FormatEntry) :
  insert_desc e l ≡ₚ e :: l.
Proof.
  induction l as [|y l IH]; simpl; [done|].
  destruct (size_key e <? size_key y)%Z; [|done].
  rewrite IH. apply Permutation_swap.
Qed.

Lemma sort_desc_perm (l : list FormatEntry) : sort_desc l ≡ₚ l.
Proof.
  induction l as [|e l IH]; simpl; [done|].
  rewrite insert_desc_perm. by rewrite IH.
Qed.



(** The sort is stable: the entries of one key keep their order. *)
Lemma insert_desc_stable (z : Z) (e : FormatEntry) (l : list FormatEntry) :
  filter (λ x, size_key x = z) (insert_desc e l)
  = filter (λ x, size_key x = z) (e :: l).
Proof.
  induction l as [|y l IH]; simpl; [done|].
  destruct (size_key e <? size_key y)%Z eqn:Hlt; [|done].
  apply Z.ltb_lt in Hlt.
  rewrite (filter_cons _ y), IH, !(filter_cons _ e), (filter_cons _ y).
  repeat case_decide; try done. lia.
Qed.

Lemma sort_desc_stable (z : Z) (l : list FormatEntry) :
  filter (λ x, size_key x = z) (sort_desc l) = filter (λ x, size_key x = z) l.
Proof.
  induction l as [|e l IH]; simpl; [done|].
  rewrite insert_desc_stable, !filter_cons. by rewrite IH.
Qed.

(** ** The loop over the formats *)

Lemma is_video_true (f : Format) : is_video f = true ↔ video f.
Proof. unfold is_video. by rewrite bool_decide_eq_true. Qed.

(** The dict that the loop appends for a format is the entry that stands
    for it. *)
Lemma entry_of_entry_for (f : Format) (e : FormatEntry) :
  entry_of f = Ok e → entry_for f e.
Proof.
  unfold entry_of, entry_for, str_or.
  destruct (format_id f) as [| |i], (ext f) as [| |x]; simpl; intros H;
    try done; injection H as <-; simpl; by split_and!.
Qed.

Lemma entry_of_Ok (f : Format) :
  format_id f ≠ Absent → ext f ≠ Absent → ∃ e, entry_of f = Ok e.
Proof.
  intros Hi Hx. unfold entry_of.
  destruct (format_id f) as [| |i], (ext f) as [| |x]; simpl; try done;
    by eexists.
Qed.

Lemma entry_of_Raise (f : Format) (e : exn) :
  entry_of f = Raise e →
  (format_id f = Absent ∧ e = KeyError "format_id")
  ∨ (format_id f ≠ Absent ∧ ext f = Absent ∧ e = KeyError "ext").
Proof.
  unfold entry_of.
  destruct (format_id f) as [| |i], (ext f) as [| |x]; simpl; intros H;
    try done; injection H as <-; try (by left); by right.
Qed.

(** When the loop ends normally it has appended, in order, the entry of
    every format that is not audio only, and of no other. *)
Lemma collect_formats_Ok (fs : list Format) (es : list FormatEntry) :
  collect_formats fs = Ok es →
  Forall2 entry_for (filter video fs) es.
Proof.
  revert es. induction fs as [|f fs IH]; intros es H; simpl in H.
  - injection H as <-. constructor.
  - rewrite filter_cons. destruct (is_video f) eqn:Hv.
    + apply is_video_true in Hv. rewrite decide_True by done.
      destruct (entry_of f) as [e|] eqn:He; simpl in H; [|done].
      destruct (collect_formats fs) as [es'|]; simpl in H; [|done].
      injection H as <-. constructor; [by apply entry_of_entry_for|].
      by apply IH.
    + rewrite decide_False; [by apply IH|].
      intros Hvid. apply is_video_true in Hvid. congruence.
Qed.

(** The loop ends normally exactly when every kept format has both keys;
    otherwise the KeyError of the first one that lacks a key leaves it. *)
Lemma collect_formats_cases (fs : list Format) :
  (Forall has_required_keys fs ∧ ∃ es, collect_formats fs = Ok es)
  ∨ (¬ Forall has_required_keys fs
     ∧ ∃ k, collect_formats fs = Raise (KeyError k)
            ∧ (k = "format_id" ∨ k = "ext")).
Proof.
  induction fs as [|f fs IH]; simpl.
  - left. split; [constructor|by eexists].
  - destruct (is_video f) eqn:Hv.
    + apply is_video_true in Hv.
      destruct (entry_of f) as [e|err] eqn:He; simpl.
      * destruct IH as [[Hall [es ->]]|[Hnot (k & -> & Hk)]]; simpl.
        -- left. split; [|by eexists]. constructor; [|done].
           intros _. apply entry_of_entry_for in He.
           by destruct He as (? & _ & ? & _).
        -- right. split; [|by eexists].
           intros Hall. apply Forall_cons in Hall as [_ Hall]. by apply Hnot.
      * right. split.
        -- intros Hall. apply Forall_cons in Hall as [Hf _].
           destruct (Hf Hv) as [Hi Hx].
           destruct (entry_of_Ok f Hi Hx) as [e' He']. congruence.
        -- apply entry_of_Raise in He as [[_ ->]|(_ & _ & ->)];
             eexists; split; eauto.
    + assert (¬ video f) as Hnv
        by (intros Hvid; apply is_video_true in Hvid; congruence).
      destruct IH as [[Hall Hes]|[Hnot Hk]].
      * left. split; [|done]. constructor; [|done]. by intros Hvid.
      * right. split; [|done].
        intros Hall. apply Forall_cons in Hall as [_ Hall]. by apply Hnot.
Qed.


Lemma formats_or_empty_Ok (v : slot (list Format)) (fs : list Format) :
  formats_or_empty v = Ok fs → v ≠ IsNone ∧ fs = listed v.
Proof. destruct v; simpl; intros H; try done; by injection H as <-. Qed.

(** What a normal return of [get_info] tells. *)
Lemma get_info_inl (ydl : Extractor) (req : VideoRequest) (r : InfoResponse) :
  get_info ydl req = inl r →
  ∃ x es,
    ydl (url req) = Ok x
    ∧ formats (select_entry x) ≠ IsNone
    ∧ collect_formats (listed (formats (select_entry x))) = Ok es
    ∧ r = {| r_title := title (select_entry x);
             r_thumbnail := thumbnail (select_entry x);
             r_duration := duration (select_entry x);
             r_formats := sort_desc es |}.
Proof.
  unfold get_info, get_info_try. intros H.
  destruct (ydl (url req)) as [x|]; simpl in H; [|done].
  destruct (formats_or_empty _) as [fs|] eqn:Hf; simpl in H; [|done].
  apply formats_or_empty_Ok in Hf as [Hn ->].
  destruct (collect_formats _) as [es|] eqn:Hc; simpl in H; [|done].
  injection H as <-. by exists x, es.
Qed.

(** ** /info *)





(** C8, as amended: when the collaborator raises, [/info] answers 400 with
    the text of that exception as detail; every error of [/info] is a 400
    carrying the text of the exception that left the body; and when the
    collaborator returns an info dict, the request is answered without
    error exactly when that dict's ['formats'] is missing or a list and
    every format in it that is not audio only has its ['format_id'] and
    ['ext'].  A ['formats'] that is None makes the loop raise TypeError,
    and a format that lacks one of the two keys makes the body raise
    KeyError; both are answered 400 as well. *)
Theorem info_errors_are_client_errors (ydl : Extractor) (req : VideoRequest) :
  (∀ e, ydl (url req) = Raise e →
     get_info ydl req = inr {| status_code := 400; detail := exn_str e |})
  ∧ (∀ h, get_info ydl req = inr h →
       (400 ≤ status_code h < 500)%Z
       ∧ ∃ e, get_info_try ydl req = Raise e ∧ detail h = exn_str e)
  ∧ (∀ x, ydl (url req) = Ok x →
       let v := formats (select_entry x) in
       (v ≠ IsNone → Forall has_required_keys (listed v) →
          ∃ r, get_info ydl req = inl r)
       ∧ (v = IsNone →
            get_info ydl req
            = inr {| status_code := 400;
                     detail := "'NoneType' object is not iterable" |})
       ∧ (¬ Forall has_required_keys (listed v) →
            ∃ k, get_info ydl req
                 = inr {| status_code := 400; detail := exn_str (KeyError k) |}
                 ∧ (k = "format_id" ∨ k = "ext"))).
Proof.
  unfold get_info, get_info_try. split_and!.
  - intros e ->. done.
  - intros h H. destruct (_ ≫= _) as [r|e]; [done|].
    injection H as <-. simpl. split; [lia|by eexists].
  - intros x ->. simpl.
    destruct (formats (select_entry x)) as [| |fs]; simpl.
    + split_and!; [by eexists|done|]. intros Hn. destruct Hn. constructor.
    + split_and!; [done|done|]. intros Hn. destruct Hn. constructor.
    + destruct (collect_formats_cases fs)
        as [[Hall [es ->]]|[Hnot (k & -> & Hk)]]; simpl.
      * split_and!; [by eexists|done|done].
      * split_and!; [done|done|]. intros _. by exists k.
Qed.

(** C8, the claim as stated fails: extraction succeeds and the request is
    answered with an error, when the one video format has no ['format_id'],
    and when ['formats'] is None. *)
Lemma info_error_after_successful_extraction :
  let f : Format :=
    {| format_id := Absent; ext := Value "mp4"; vcodec := Some "avc1";
       resolution := Some "1280x720"; filesize := Some 500%Z;
       format_note := None |} in
  let x (v : slot (list Format)) : Extraction :=
    {| info := {| _type := None; title := Some "clip"; thumbnail := None;
                  duration := None; formats := v |};
       entries := None |} in
  let req := {| url := "https://example.com/v" |} in
  get_info (λ _, Ok (x (Value [f]))) req
  = inr {| status_code := 400; detail := "'format_id'" |}
  ∧ get_info (λ _, Ok (x IsNone)) req
    = inr {| status_code := 400;
             detail := "'NoneType' object is not iterable" |}.
Proof. split; reflexivity. Qed.

(** * Further properties *)

(** ** The registry: connect, disconnect, broadcast *)

Lemma list_remove_snoc (x : WebSocket) (l : list WebSocket) :
  x ∉ l → list_remove x (l ++ [x]) = Ok l.
Proof.
  induction l as [|y l IH]; intros Hx; simpl.
  - by rewrite decide_True.
  - apply not_elem_of_cons in Hx as [Hne Hx].
    rewrite decide_False by done. by rewrite IH.
Qed.

(** X1: a connection that registers and then unregisters leaves the
    registry as it found it, provided it was not registered before. *)
Theorem disconnect_after_connect (m : ConnectionManager) (ws : WebSocket) :
  ws ∉ active_connections m →
  disconnect (connect m ws) ws = Ok m.
Proof.
  intros H. destruct m as [l]. unfold disconnect, connect. simpl in *.
  by rewrite list_remove_snoc.
Qed.

Lemma disconnect_after_connect_witness :
  disconnect (connect {| active_connections := [4; 7] |} 9) 9
  = Ok {| active_connections := [4; 7] |}.
Proof.
  apply (disconnect_after_connect {| active_connections := [4; 7] |} 9).
  simpl. rewrite !not_elem_of_cons. split_and!; [lia..|apply not_elem_of_nil].
Defined.

(** X2: a successful [disconnect] takes one registration away and no more:
    the registry is one shorter, the others keep their place and order, and
    a handle that was registered once is gone. *)
Theorem disconnect_removes_one
    (m m' : ConnectionManager) (ws : WebSocket) :
  disconnect m ws = Ok m' →
  length (active_connections m) = S (length (active_connections m'))
  ∧ active_connections m' `sublist_of` active_connections m
  ∧ (∀ ws', ws' ≠ ws →
       (ws' ∈ active_connections m' ↔ ws' ∈ active_connections m))
  ∧ (NoDup (active_connections m) → ws ∉ active_connections m').
Proof.
  unfold disconnect. intros H.
  destruct (list_remove ws (active_connections m)) as [l|e] eqn:Hr;
    simpl in H; [|done].
  injection H as <-. simpl.
  destruct (list_remove_present ws (active_connections m))
    as (l1 & l2 & Hm & Hl1 & Hr'); [by eapply list_remove_Ok_elem|].
  rewrite Hr in Hr'. injection Hr' as ->. rewrite Hm. split_and!.
  - rewrite !length_app. simpl. lia.
  - apply sublist_app; [done|]. by apply sublist_cons.
  - intros ws' Hne. rewrite !elem_of_app, elem_of_cons.
    split; [intros [?|?]; auto|intros [?|[?|?]]; auto; done].
  - intros Hnd. apply NoDup_app in Hnd as (_ & Hdisj & Hnd2).
    apply NoDup_cons in Hnd2 as [Hl2 _].
    rewrite elem_of_app. by intros [|].
Qed.

Lemma disconnect_removes_one_witness :
  length [4; 7; 9] = S (length [4; 9]) ∧ (7 : WebSocket) ∉ [(4 : WebSocket); 9].
Proof.
  destruct (disconnect_removes_one {| active_connections := [4; 7; 9] |}
              {| active_connections := [4; 9] |} 7 eq_refl)
    as (Hlen & _ & _ & Hgone).
  split; [exact Hlen|]. apply Hgone. simpl.
  repeat constructor; rewrite ?not_elem_of_cons;
    split_and?; try lia; apply not_elem_of_nil.
Defined.

(** Changes that only register append the newcomers. *)
Lemma foldl_apply_arrivals (cs : list registry_change) (l : list WebSocket) :
  Forall (λ c, is_Some (joining c)) cs →
  foldl apply_change l cs = l ++ omap joining cs.
Proof.
  intros Hcs. revert l.
  induction Hcs as [|c cs [ws Hc] _ IH]; intros l; [by rewrite app_nil_r|].
  destruct c as [ws'|ws']; [|done]. cbn [foldl apply_change].
  rewrite IH, <-app_assoc. done.
Qed.

Lemma broadcast_iter_arrivals (fuel : nat) (down : list WebSocket) (pos : nat)
    (conns : list WebSocket) (sched : list (list registry_change))
    (message : json) :
  Forall (λ c, is_Some (joining c)) (concat sched) →
  Forall (λ c, c ∉ down) (conns ++ newcomers sched) →
  length conns + length (newcomers sched) - pos < fuel →
  ∃ s late,
    broadcast_iter fuel down pos conns sched message = Some s
    ∧ outcome s = Ok ()
    ∧ registry s = conns ++ late
    ∧ late `prefix_of` newcomers sched
    ∧ delivered s = (λ c, (c, message)) <$> drop pos (registry s).
Proof.
  revert pos conns sched.
  induction fuel as [|fuel IH]; intros pos conns sched Harr Hup Hf; [lia|].
  cbn [broadcast_iter]. destruct (conns !! pos) as [c|] eqn:Hc.
  - rewrite send_text_up.
    2:{ rewrite Forall_forall in Hup. apply Hup, elem_of_app. left.
        by eapply list_elem_of_lookup_2. }
    rewrite (concat_hd_tl sched) in Harr.
    apply Forall_app in Harr as [Hhd Htl].
    rewrite (foldl_apply_arrivals _ _ Hhd).
    rewrite (newcomers_split sched) in Hup, Hf.
    apply lookup_lt_Some in Hc as Hlt.
    destruct (IH (S pos) (conns ++ omap joining (hd [] sched)) (tl sched))
      as (s & late & -> & Ho & Hr & Hlate & Hd).
    { done. }
    { by rewrite <-app_assoc. }
    { rewrite !length_app in *. lia. }
    eexists _, (omap joining (hd [] sched) ++ late).
    split; [reflexivity|]. simpl. split_and!.
    + done.
    + by rewrite Hr, <-app_assoc.
    + rewrite (newcomers_split sched). by apply prefix_app.
    + assert (registry s !! pos = Some c) as Hpos
        by (rewrite Hr, <-app_assoc; by apply lookup_app_l_Some).
      by rewrite Hd, (drop_S _ _ _ Hpos).
  - eexists _, []. split; [reflexivity|]. simpl.
    apply lookup_ge_None in Hc.
    split_and!; [done|by rewrite app_nil_r|apply prefix_nil|].
    by rewrite drop_ge.
Qed.

(** X3: as long as no connection unregisters while [broadcast] runs and
    no transport is down, the call returns normally and has sent the
    message to every connection of the registry it leaves, once per
    registration and in registry order: to all that were registered when it
    started, and then to those that registered in time. *)
Theorem broadcast_reaches_everyone
    (down : list WebSocket) (m : ConnectionManager)
    (sched : list (list registry_change)) (message : json) :
  Forall (λ c, is_Some (joining c)) (concat sched) →
  Forall (λ c, c ∉ down) (active_connections m ++ newcomers sched) →
  ∃ s late,
    broadcast_concurrent down m sched message = Some s
    ∧ outcome s = Ok ()
    ∧ registry s = active_connections m ++ late
    ∧ late `prefix_of` newcomers sched
    ∧ delivered s = (λ c, (c, message)) <$> registry s
    ∧ ∀ c, c ∈ active_connections m → (c, message) ∈ delivered s.
Proof.
  intros Harr Hup. unfold broadcast_concurrent.
  destruct (broadcast_iter_arrivals
              (S (length (active_connections m) + length (newcomers sched)))
              down 0 (active_connections m) sched message Harr Hup)
    as (s & late & Hs & Ho & Hr & Hlate & Hd); [lia|].
  rewrite drop_0 in Hd. exists s, late. split_and!; try done.
  intros c Hc. rewrite Hd. apply (list_elem_of_fmap_2 (λ c, (c, message))).
  rewrite Hr. apply elem_of_app. by left.
Qed.

Lemma broadcast_reaches_everyone_witness :
  ∃ s late,
    broadcast_concurrent [5] {| active_connections := [1; 2] |}
      [[Connects 3]; []; [Connects 4]] JNull = Some s
    ∧ outcome s = Ok ()
    ∧ registry s = [1; 2] ++ late
    ∧ delivered s = (λ c, (c, JNull)) <$> registry s.
Proof.
  destruct (broadcast_reaches_everyone [5] {| active_connections := [1; 2] |}
              [[Connects 3]; []; [Connects 4]] JNull)
    as (s & late & Hs & Ho & Hr & _ & Hd & _).
  - repeat constructor; by eexists.
  - simpl. repeat constructor; rewrite ?not_elem_of_cons;
      split_and?; try lia; apply not_elem_of_nil.
  - exists s, late. split_and!; [exact Hs|exact Ho|exact Hr|exact Hd].
Defined.

Lemma sublist_drop_mono {A} (l' l : list A) (k : nat) :
  l' `sublist_of` l → drop k l' `sublist_of` drop k l.
Proof.
  intros H. revert k. induction H as [|x l1 l2 H IH|x l1 l2 H IH]; intros k.
  - done.
  - destruct k; simpl; [by apply sublist_skip|apply IH].
  - destruct k as [|k]; simpl; [by apply sublist_cons|].
    etrans; [|apply IH].
    replace (S k) with (k + 1) by lia. rewrite <-drop_drop.
    apply sublist_drop.
Qed.

Lemma drop_connection_sublist (l : list WebSocket) (ws : WebSocket) :
  drop_connection l ws `sublist_of` l.
Proof.
  unfold drop_connection.
  destruct (decide (ws ∈ l)) as [Hin|Hn].
  - destruct (list_remove_present _ _ Hin) as (l1 & l2 & -> & _ & ->).
    apply sublist_app; [done|]. by apply sublist_cons.
  - by rewrite (list_remove_absent _ _ Hn).
Qed.

(** Whoever is in the list after some changes was there before or has
    registered. *)
Lemma foldl_apply_change_elem (cs : list registry_change) (l : list WebSocket)
    (x : WebSocket) :
  x ∈ foldl apply_change l cs → x ∈ l ++ omap joining cs.
Proof.
  revert l. induction cs as [|c cs IH]; intros l; [by rewrite app_nil_r|].
  cbn [foldl]. intros Hx. apply IH in Hx.
  apply elem_of_app in Hx as [Hx|Hx].
  - destruct c as [ws|ws]; cbn [apply_change] in Hx.
    + change (omap joining (Connects ws :: cs)) with (ws :: omap joining cs).
      apply elem_of_app in Hx as [Hx|Hx]; [apply elem_of_app; by left|].
      apply list_elem_of_singleton in Hx as ->.
      apply elem_of_app. right. left.
    + apply elem_of_app. left.
      eapply elem_of_sublist; [done|apply drop_connection_sublist].
  - apply elem_of_app. right.
    destruct c as [ws|ws]; [by right|done].
Qed.

(** Changes that only unregister leave a sublist. *)
Lemma foldl_apply_departures (cs : list registry_change)
    (l : list WebSocket) :
  omap joining cs = [] → foldl apply_change l cs `sublist_of` l.
Proof.
  revert l. induction cs as [|c cs IH]; intros l Hcs; [done|].
  destruct c as [ws|ws]; [done|]. cbn [foldl apply_change].
  etrans; [by apply IH|apply drop_connection_sublist].
Qed.

Lemma broadcast_iter_within (fuel : nat) (down : list WebSocket) (pos : nat)
    (conns : list WebSocket) (sched : list (list registry_change))
    (message : json) (s : Sent) :
  broadcast_iter fuel down pos conns sched message = Some s →
  Forall (λ x, x.2 = message) (delivered s)
  ∧ (∀ c, c ∈ fst <$> delivered s → c ∈ conns ++ newcomers sched)
  ∧ (∀ c, c ∈ registry s → c ∈ conns ++ newcomers sched).
Proof.
  revert pos conns sched s.
  induction fuel as [|fuel IH]; intros pos conns sched s H; [done|].
  cbn [broadcast_iter] in H.
  destruct (conns !! pos) as [c|] eqn:Hc.
  - destruct (send_text down c) as [[]|e].
    + destruct (broadcast_iter fuel down (S pos)
                  (foldl apply_change conns (hd [] sched)) (tl sched) message)
        as [s'|] eqn:Hs'; simpl in H; [|done].
      injection H as <-. simpl.
      destruct (IH _ _ _ _ Hs') as (Hm & Hd & Hr).
      assert (∀ x, x ∈ foldl apply_change conns (hd [] sched)
                         ++ newcomers (tl sched) →
                   x ∈ conns ++ newcomers sched) as Hsub.
      { intros x Hx. rewrite (newcomers_split sched), app_assoc.
        apply elem_of_app in Hx as [Hx|Hx]; apply elem_of_app; [left|by right].
        by apply foldl_apply_change_elem. }
      split_and!.
      * by constructor.
      * intros x Hx. apply elem_of_cons in Hx as [->|Hx]; [|by apply Hsub, Hd].
        apply elem_of_app. left. by eapply list_elem_of_lookup_2.
      * intros x Hx. by apply Hsub, Hr.
    + injection H as <-. simpl. split_and!; [done| |].
      * intros x Hx. by apply elem_of_nil in Hx.
      * intros x Hx. apply elem_of_app. by left.
  - injection H as <-. simpl. split_and!; [done| |].
    + intros x Hx. by apply elem_of_nil in Hx.
    + intros x Hx. apply elem_of_app. by left.
Qed.

Lemma broadcast_iter_sublist (fuel : nat) (down : list WebSocket) (pos : nat)
    (conns : list WebSocket) (sched : list (list registry_change))
    (message : json) (s : Sent) :
  newcomers sched = [] →
  broadcast_iter fuel down pos conns sched message = Some s →
  (fst <$> delivered s) `sublist_of` drop pos conns
  ∧ registry s `sublist_of` conns.
Proof.
  revert pos conns sched s.
  induction fuel as [|fuel IH]; intros pos conns sched s Hn H; [done|].
  cbn [broadcast_iter] in H.
  destruct (conns !! pos) as [c|] eqn:Hc.
  - destruct (send_text down c) as [[]|e].
    + destruct (broadcast_iter fuel down (S pos)
                  (foldl apply_change conns (hd [] sched)) (tl sched) message)
        as [s'|] eqn:Hs'; simpl in H; [|done].
      injection H as <-. simpl.
      rewrite (newcomers_split sched) in Hn.
      apply app_eq_nil in Hn as [Hhd Htl].
      destruct (IH _ _ _ _ Htl Hs') as (Hd & Hr).
      pose proof (foldl_apply_departures (hd [] sched) conns Hhd) as Hsub.
      split.
      * rewrite (drop_S _ _ _ Hc). apply sublist_skip.
        etrans; [exact Hd|]. by apply sublist_drop_mono.
      * by etrans.
    + injection H as <-. simpl. split; [apply sublist_nil_l|done].
  - injection H as <-. simpl. split; [apply sublist_nil_l|done].
Qed.

(** X4: whoever registers or unregisters while [broadcast] runs, it sends
    only the message it was given, and only to connections that were
    registered when it started or registered during the call; nobody else
    is in the registry afterwards.  When nobody registers during the call,
    the deliveries go to connections registered at the start, in
    registration order and no more often than they were registered. *)
Theorem broadcast_delivers_within_registry
    (down : list WebSocket) (m : ConnectionManager)
    (sched : list (list registry_change)) (message : json) (s : Sent) :
  broadcast_concurrent down m sched message = Some s →
  Forall (λ x, x.2 = message) (delivered s)
  ∧ (∀ c, c ∈ fst <$> delivered s →
          c ∈ active_connections m ++ newcomers sched)
  ∧ (∀ c, c ∈ registry s → c ∈ active_connections m ++ newcomers sched)
  ∧ (newcomers sched = [] →
       (fst <$> delivered s) `sublist_of` active_connections m
       ∧ registry s `sublist_of` active_connections m
       ∧ (NoDup (active_connections m) → NoDup (fst <$> delivered s))).
Proof.
  unfold broadcast_concurrent. intros H.
  destruct (broadcast_iter_within _ _ _ _ _ _ _ H) as (Hm & Hd & Hr).
  split_and!; [done..|].
  intros Hn. destruct (broadcast_iter_sublist _ _ _ _ _ _ _ Hn H) as (Hd' & Hr').
  rewrite drop_0 in Hd'. split_and!; [done..|].
  intros Hnd. by eapply sublist_NoDup.
Qed.

Lemma broadcast_delivers_within_registry_witness :
  Forall (λ x : WebSocket * json, x.2 = JNull)
    [(1, JNull); (3, JNull); (4, JNull); (6, JNull)]
  ∧ ∀ c, c ∈ fst <$> [((1 : WebSocket), JNull); (3, JNull); (4, JNull);
                      (6, JNull)] →
         c ∈ [1; 2; 3; 4; 5] ++ [6].
Proof.
  destruct (broadcast_delivers_within_registry []
              {| active_connections := [1; 2; 3; 4; 5] |}
              [[Disconnects 2]; [Disconnects 5; Connects 6]] JNull
              {| outcome := Ok ();
                 delivered := [(1, JNull); (3, JNull); (4, JNull); (6, JNull)];
                 registry := [1; 3; 4; 6] |}
              eq_refl) as (Hm & Hd & _).
  split; [exact Hm|exact Hd].
Defined.

(** ** The running system: who is registered *)

(** What an event does to the registry. *)
Lemma step_registry (sys : System) (ev : event) :
  active_connections (manager (step sys ev))
  = match ev with
    | WsConnect ws => active_connections (manager sys) ++ [ws]
    | WsDisconnect ws => drop_connection (active_connections (manager sys)) ws
    | _ => active_connections (manager sys)
    end.
Proof.
  destruct ev as [ws|ws|req|d|down]; simpl; try done.
  - unfold disconnect, drop_connection.
    by destruct (list_remove ws (active_connections (manager sys))).
  - by destruct (hook (download_manager sys) d).
  - by destruct (poll_frame down sys) as (-> & _).
Qed.

Lemma filter_all {A} (P : A → Prop) `{∀ x, Decision (P x)} (l : list A) :
  Forall P l → filter P l = l.
Proof.
  induction 1 as [|x l Hx _ IH]; [done|].
  by rewrite filter_cons_True, IH.
Qed.

Lemma filter_none {A} (P : A → Prop) `{∀ x, Decision (P x)} (l : list A) :
  Forall (λ x, ¬ P x) l → filter P l = [].
Proof.
  induction 1 as [|x l Hx _ IH]; [done|].
  by rewrite filter_cons_False, IH.
Qed.

Lemma drop_connection_filter (l : list WebSocket) (ws : WebSocket) :
  NoDup l → drop_connection l ws = filter (λ c, c ≠ ws) l.
Proof.
  unfold drop_connection. induction l as [|y l IH]; intros Hnd; [done|].
  apply NoDup_cons in Hnd as [Hy Hnd]. specialize (IH Hnd). simpl.
  destruct (decide (y = ws)) as [->|Hne].
  - rewrite filter_cons_False by (by intros H; apply H).
    symmetry. apply filter_all, Forall_forall. by intros x Hx ->.
  - rewrite filter_cons_True by done.
    destruct (list_remove ws l) as [l'|e]; simpl; by rewrite <-IH.
Qed.

(** X5: when no handle connects twice, the registry is, after any run,
    the list of the endpoints that are open (connected and not
    disconnected since), in the order they connected, without duplicates;
    download requests, progress reports and the loop leave it alone. *)
Theorem registry_is_open_endpoints (trace : list event) (sys : System) :
  NoDup (active_connections (manager sys) ++ connects trace) →
  active_connections (manager (run trace sys))
  = open_endpoints (active_connections (manager sys)) trace
  ∧ NoDup (active_connections (manager (run trace sys))).
Proof.
  unfold open_endpoints.
  revert sys. induction trace as [|ev trace IH]; intros sys Hnd.
  { simpl in *. rewrite app_nil_r in Hnd. done. }
  rewrite run_cons. cbn [foldl].
  assert (active_connections (manager (step sys ev))
          = match ev with
            | WsConnect ws => active_connections (manager sys) ++ [ws]
            | WsDisconnect ws =>
                filter (λ c, c ≠ ws) (active_connections (manager sys))
            | _ => active_connections (manager sys)
            end) as Hstep.
  { rewrite step_registry. destruct ev; try done.
    apply drop_connection_filter. by apply NoDup_app in Hnd as (? & _ & _). }
  rewrite <-Hstep. apply IH. rewrite Hstep.
  destruct ev as [ws|ws|req|d|down]; simpl in Hnd; try done.
  - by rewrite <-app_assoc.
  - apply NoDup_app in Hnd as (Hl & Hdisj & Hc).
    apply NoDup_app. split_and!; [by apply NoDup_filter| |done].
    intros x Hx. apply list_elem_of_filter in Hx as [_ Hx]. by apply Hdisj.
Qed.

Lemma registry_is_open_endpoints_witness :
  active_connections
    (manager (run [WsConnect 1; WsConnect 2; PollStep []; WsDisconnect 1;
                   WsConnect 3; WsDisconnect 1] initial))
  = [2; 3].
Proof.
  refine (proj1 (registry_is_open_endpoints
                   [WsConnect 1; WsConnect 2; PollStep []; WsDisconnect 1;
                    WsConnect 3; WsDisconnect 1] initial _)).
  simpl. repeat constructor; rewrite ?not_elem_of_cons;
    split_and?; try lia; apply not_elem_of_nil.
Defined.

(** ** The running system: who gets what *)

(** What a stage of the loop puts on the wire goes to a registered
    connection. *)
Lemma poll_wire (down : list WebSocket) (sys : System) :
  wire (broadcast_progress_step down sys) = wire sys
  ∨ ∃ c message,
      c ∈ active_connections (manager sys)
      ∧ wire (broadcast_progress_step down sys) = wire sys ++ [(c, message)].
Proof.
  unfold broadcast_progress_step.
  destruct (progress_task sys) as [l|l|l message pos|l|e]; try by left.
  - left. by case_decide.
  - destruct (active_connections (manager sys) !! pos) as [c|] eqn:Hc;
      [|by left].
    destruct (send_text down c); [|by left].
    right. exists c, message. split; [|done]. by eapply list_elem_of_lookup_2.
Qed.

Lemma received_snoc (ws c : WebSocket) (message : json)
    (w : list (WebSocket * json)) :
  snd <$> filter (λ x : WebSocket * json, x.1 = ws) (w ++ [(c, message)])
  = (snd <$> filter (λ x : WebSocket * json, x.1 = ws) w)
    ++ (if decide (c = ws) then [message] else []).
Proof.
  rewrite filter_app, fmap_app. f_equal.
  rewrite filter_cons. simpl. by destruct (decide (c = ws)).
Qed.

Lemma step_unregistered (ws : WebSocket) (sys : System) (ev : event) :
  ws ∉ active_connections (manager sys) →
  ev ≠ WsConnect ws →
  (ws ∉ active_connections (manager (step sys ev)))
  ∧ received ws (step sys ev) = received ws sys.
Proof.
  intros Hn Hev. split.
  - rewrite step_registry. destruct ev as [ws'|ws'|req|d|down]; try done.
    + rewrite not_elem_of_app. split; [done|].
      intros H. apply list_elem_of_singleton in H. congruence.
    + intros H. apply Hn.
      eapply elem_of_sublist; [done|apply drop_connection_sublist].
  - unfold received.
    destruct (poll_or_other ev) as [[down ->]|Hother].
    + cbn [step].
      destruct (poll_wire down sys) as [->|(c & message & Hc & ->)]; [done|].
      rewrite received_snoc, decide_False, app_nil_r; [done|congruence].
    + by destruct (step_other sys ev Hother) as (_ & _ & ->).
Qed.

(** X6: a connection that is not registered and does not connect gets
    nothing: whatever else happens, no message reaches it and it stays
    unregistered.  So nothing arrives before the first connect, and nothing
    after a disconnect that took the handle out of the registry. *)
Theorem unregistered_gets_nothing
    (ws : WebSocket) (trace : list event) (sys : System) :
  ws ∉ active_connections (manager sys) →
  WsConnect ws ∉ trace →
  received ws (run trace sys) = received ws sys
  ∧ ws ∉ active_connections (manager (run trace sys)).
Proof.
  revert sys. induction trace as [|ev trace IH]; intros sys Hn Ht; [done|].
  apply not_elem_of_cons in Ht as [Hev Ht].
  destruct (step_unregistered ws sys ev Hn) as [Hn' Hr]; [congruence|].
  rewrite run_cons. destruct (IH _ Hn' Ht) as [-> ?]. by rewrite Hr.
Qed.

Lemma unregistered_gets_nothing_witness :
  received 2 (run [WsConnect 1;
                   PostDownload {| req_url := "u"; req_format_id := "best" |};
                   PollStep []; PollStep []; PollStep []; PollStep []]
                initial) = [].
Proof.
  refine (proj1 (unregistered_gets_nothing 2
                   [WsConnect 1;
                    PostDownload {| req_url := "u"; req_format_id := "best" |};
                    PollStep []; PollStep []; PollStep []; PollStep []]
                   initial _ _)).
  - apply not_elem_of_nil.
  - rewrite !not_elem_of_cons. split_and!; try done. apply not_elem_of_nil.
Defined.

Lemma drop_connection_other (ws ws' : WebSocket) (l : list WebSocket) :
  ws' ≠ ws →
  filter (λ c, c = ws) (drop_connection l ws') = filter (λ c, c = ws) l.
Proof.
  intros Hne. unfold drop_connection.
  destruct (decide (ws' ∈ l)) as [Hin|Hn].
  - destruct (list_remove_present _ _ Hin) as (l1 & l2 & -> & _ & ->).
    rewrite !filter_app, filter_cons_False; done.
  - by rewrite (list_remove_absent _ _ Hn).
Qed.

(** A handle that is registered once has one place in the list. *)
Lemma registered_index (ws : WebSocket) (l : list WebSocket) :
  filter (λ c, c = ws) l = [ws] →
  ∃ i, l !! i = Some ws ∧ ∀ j, l !! j = Some ws → j = i.
Proof.
  induction l as [|y l IH]; [done|].
  rewrite filter_cons. destruct (decide (y = ws)) as [->|Hne].
  - intros H. injection H as H. exists 0. split; [done|].
    intros [|j] Hj; [done|]. simpl in Hj.
    apply list_elem_of_lookup_2 in Hj.
    assert (ws ∈ filter (λ c, c = ws) l) as Hin
      by (by apply list_elem_of_filter).
    rewrite H in Hin. by apply elem_of_nil in Hin.
  - intros H. destruct (IH H) as (i & Hi & Huniq).
    exists (S i). split; [done|].
    intros [|j] Hj; simpl in Hj; [congruence|]. f_equal. by apply Huniq.
Qed.

Lemma step_still_registered (ws : WebSocket) (sys : System) (ev : event) :
  registered_once ws sys → leaves_alone ws ev →
  registered_once ws (step sys ev).
Proof.
  unfold registered_once. intros Hreg Hev.
  rewrite step_registry. destruct ev as [ws'|ws'|req|d|down]; try done.
  - rewrite filter_app, Hreg, filter_cons_False; [done|]. apply Hev.
  - by rewrite drop_connection_other.
Qed.

Lemma step_caught_up (ws : WebSocket) (published0 received0 : list json)
    (sys : System) (ev : event) :
  registered_once ws sys →
  leaves_alone ws ev →
  match ev with
  | WsDisconnect _ => ¬ in_broadcast (progress_task sys)
  | _ => True
  end →
  caught_up ws published0 received0 sys →
  caught_up ws published0 received0 (step sys ev).
Proof.
  intros Hreg Hev Hquiet (new & Hp & Hr).
  destruct (registered_index ws _ Hreg) as (i & Hi & Huniq).
  destruct (poll_or_other ev) as [[down ->]|Hother].
  - simpl in Hev. subst down. cbn [step].
    destruct (progress_task sys)
      as [last_status|last_status|last_status message pos|last_status|e]
      eqn:Ht.
    + exists new. unfold broadcast_progress_step. rewrite Ht.
      case_decide; simpl; by rewrite ?Ht.
    + destruct (step_send [] sys last_status Ht) as (Hp' & Hw' & Ht').
      exists (new ++ [json_dumps (current_status (download_manager sys))]).
      split; [by rewrite Hp', Hp, app_assoc|]. rewrite Ht'.
      exists new, i. destruct (poll_frame [] sys) as (-> & _).
      split_and!; [done|done|]. unfold received in *.
      rewrite Hw', Hr. by rewrite app_nil_r.
    + destruct Hr as (new' & i' & -> & Hi' & Hr).
      assert (i' = i) as -> by (by apply Huniq).
      destruct (step_round [] sys last_status message pos Ht) as (Hp' & Hw').
      exists (new' ++ [message]). split; [by rewrite Hp'|].
      destruct (active_connections (manager sys) !! pos) as [c|] eqn:Hc.
      * rewrite send_text_up in Hw' by apply not_elem_of_nil.
        destruct Hw' as [Hw' ->].
        exists new', i. destruct (poll_frame [] sys) as (-> & _).
        split_and!; [done|done|]. unfold received in *.
        rewrite Hw', received_snoc, Hr.
        destruct (decide (c = ws)) as [->|Hne].
        -- assert (pos = i) as -> by (by apply Huniq).
           rewrite decide_False by lia. rewrite decide_True by lia.
           by rewrite app_nil_r, <-!app_assoc.
        -- assert (pos ≠ i) as Hpos by (intros ->; congruence).
           rewrite app_nil_r.
           destruct (decide (i < pos)); [rewrite decide_True by lia; done|].
           by rewrite decide_False by lia.
      * destruct Hw' as [Hw' ->]. unfold received in *. rewrite Hw', Hr.
        apply lookup_ge_None in Hc. apply lookup_lt_Some in Hi.
        by rewrite decide_True by lia.
    + exists new. by rewrite (step_copy [] sys last_status) in *.
    + exists new. rewrite (step_crashed [] sys e) by done. by rewrite Ht.
  - destruct (step_other sys ev Hother) as (Ht & Hp' & Hw').
    exists new. split; [by rewrite Hp'|]. rewrite Ht.
    unfold received in *. rewrite Hw'.
    destruct (progress_task sys)
      as [last_status|last_status|last_status message pos|last_status|e];
      try done.
    destruct Hr as (new' & i' & -> & Hi' & Hr).
    exists new', i'. split_and!; [done| |done].
    rewrite step_registry. destruct ev as [ws'|ws'|req|d|down]; try done.
    by apply lookup_app_l_Some.
Qed.

Lemma run_caught_up (ws : WebSocket) (published0 received0 : list json)
    (trace : list event) (sys : System) :
  registered_once ws sys →
  Forall (leaves_alone ws) trace →
  sends_undisturbed trace sys →
  caught_up ws published0 received0 sys →
  caught_up ws published0 received0 (run trace sys).
Proof.
  revert sys. induction trace as [|ev trace IH]; intros sys Hreg Hq Hs Hc;
    [done|].
  apply Forall_cons in Hq as [Hev Hq]. destruct Hs as [Hquiet Hs].
  rewrite run_cons. apply IH; [by apply step_still_registered|done|done|].
  by apply step_caught_up.
Qed.

(** X7: a connection that is registered once and stays so gets every
    message the loop hands to [broadcast], in the same order and once each,
    as long as no send meets a dead transport and no connection
    unregisters while a broadcast is under way (others may register at any
    time).  Said of a run that begins and ends outside [broadcast]. *)
Theorem subscriber_receives_every_broadcast
    (ws : WebSocket) (trace : list event) (sys : System) :
  registered_once ws sys →
  Forall (leaves_alone ws) trace →
  sends_undisturbed trace sys →
  ¬ in_broadcast (progress_task sys) →
  ¬ in_broadcast (progress_task (run trace sys)) →
  ∃ new,
    published (run trace sys) = published sys ++ new
    ∧ received ws (run trace sys) = received ws sys ++ new.
Proof.
  intros Hreg Hq Hs Hstart Hend.
  assert (caught_up ws (published sys) (received ws sys) sys) as Hc.
  { exists []. split; [by rewrite app_nil_r|].
    destruct (progress_task sys); try (by rewrite app_nil_r).
    by destruct Hstart. }
  destruct (run_caught_up ws _ _ trace sys Hreg Hq Hs Hc) as (new & Hp & Hr).
  exists new. split; [done|].
  by destruct (progress_task (run trace sys)).
Qed.

Lemma subscriber_receives_every_broadcast_witness :
  let trace :=
    [ PostDownload {| req_url := "u"; req_format_id := "best" |};
      WsConnect 2; PollStep []; PollStep []; PollStep []; WsConnect 3;
      PollStep []; PollStep []; PollStep []; PollStep []; WsDisconnect 2 ] in
  ∃ new,
    published (run trace (step initial (WsConnect 1)))
    = published (step initial (WsConnect 1)) ++ new
    ∧ received 1 (run trace (step initial (WsConnect 1)))
      = received 1 (step initial (WsConnect 1)) ++ new.
Proof.
  intros trace.
  apply (subscriber_receives_every_broadcast 1).
  - reflexivity.
  - repeat constructor; simpl; lia.
  - cbn [sends_undisturbed trace]. repeat split. vm_compute. tauto.
  - vm_compute. tauto.
  - vm_compute. tauto.
Defined.

(** ** The running system: a failed send *)

Lemma crashed_forever (trace : list event) (sys : System) (e : exn) :
  progress_task sys = Crashed e → progress_task (run trace sys) = Crashed e.
Proof.
  revert sys. induction trace as [|ev trace IH]; intros sys Hc; [done|].
  rewrite run_cons. apply IH.
  destruct (poll_or_other ev) as [[down ->]|Hother].
  - cbn [step]. by rewrite (step_crashed down sys e).
  - destruct (step_other sys ev Hother) as (-> & _). done.
Qed.

(** X8: one failed send ends the progress stream for everybody.  When the
    iterator of a broadcast comes to a connection whose transport is dead,
    the exception of the send leaves [broadcast] and the loop; the
    connection stays registered; and from then on no event makes the loop
    read the store, broadcast or deliver anything. *)
Theorem send_failure_ends_stream
    (down : list WebSocket) (sys : System) (last_status : dict)
    (message : json) (pos : nat) (c : WebSocket) :
  progress_task sys = Broadcasting last_status message pos →
  active_connections (manager sys) !! pos = Some c →
  c ∈ down →
  let sys' := step sys (PollStep down) in
  progress_task sys' = Crashed (SendFailure c)
  ∧ manager sys' = manager sys
  ∧ wire sys' = wire sys
  ∧ published sys' = published sys
  ∧ ∀ trace,
      progress_task (run trace sys') = Crashed (SendFailure c)
      ∧ observed trace sys' = []
      ∧ published (run trace sys') = published sys
      ∧ wire (run trace sys') = wire sys.
Proof.
  intros Ht Hc Hd sys'. unfold sys'. cbn [step].
  destruct (step_round down sys last_status message pos Ht) as (Hp & Hr).
  rewrite Hc, (send_text_down _ _ Hd) in Hr. destruct Hr as [Hw Ht'].
  destruct (poll_frame down sys) as (Hm & _).
  split_and!; [done..|].
  intros trace. split; [by apply crashed_forever|].
  destruct (crashed_stays trace _ _ Ht') as (Ho & Hp' & Hw').
  by rewrite Hp', Hw', Hp, Hw.
Qed.

Lemma send_failure_ends_stream_witness :
  let sys := run [WsConnect 1; WsConnect 2;
                  PostDownload {| req_url := "u"; req_format_id := "best" |};
                  PollStep []; PollStep []; PollStep []]
               initial in
  progress_task (step sys (PollStep [2])) = Crashed (SendFailure 2)
  ∧ ∀ trace, wire (run trace (step sys (PollStep [2]))) = wire sys.
Proof.
  intros sys.
  destruct (send_failure_ends_stream [2] sys ∅
              (json_dumps (dict_of [("status", PStr "starting")])) 1 2)
    as (Hcr & _ & _ & _ & Hall).
  - reflexivity.
  - reflexivity.
  - left.
  - split; [exact Hcr|]. intros trace. apply Hall.
Defined.

Lemma step_crash_cause (sys : System) (ev : event) (e : exn) :
  progress_task (step sys ev) = Crashed e →
  progress_task sys = Crashed e
  ∨ ∃ down c, ev = PollStep down ∧ c ∈ down ∧ e = SendFailure c
              ∧ c ∈ active_connections (manager sys).
Proof.
  intros H. destruct (poll_or_other ev) as [[down ->]|Hother].
  - cbn [step] in H.
    destruct (progress_task sys) as [l|l|l message pos|l|e'] eqn:Ht in |- *.
    + destruct (decide (current_status (download_manager sys) = l)).
      * rewrite (step_test_unchanged down sys l) in H by done. congruence.
      * by rewrite (step_test_changed down sys l) in H.
    + destruct (step_send down sys l Ht) as (_ & _ & Ht'). congruence.
    + destruct (step_round down sys l message pos Ht) as (_ & Hr).
      destruct (active_connections (manager sys) !! pos) as [c|] eqn:Hc.
      * destruct (send_text_cases down c) as [[_ Hs]|[Hd Hs]];
          rewrite Hs in Hr; destruct Hr as [_ Ht']; [congruence|].
        right. exists down, c. split_and!; [done|done|congruence|].
        by eapply list_elem_of_lookup_2.
      * destruct Hr as [_ Ht']. congruence.
    + by rewrite (step_copy down sys l) in H.
    + rewrite (step_crashed down sys e') in H by done. left. congruence.
  - destruct (step_other sys ev Hother) as (Ht & _). left. congruence.
Qed.

(** X21: the loop ends in no other way.  If the task of the loop has
    ended after a run from the start, it ended with the exception of a
    send to a connection whose transport was down at a stage of the
    loop. *)
Theorem loop_ends_only_by_send_failure (trace : list event) (e : exn) :
  progress_task (run trace initial) = Crashed e →
  ∃ down c, PollStep down ∈ trace ∧ c ∈ down ∧ e = SendFailure c.
Proof.
  assert (∀ sys, progress_task (run trace sys) = Crashed e →
            progress_task sys = Crashed e
            ∨ ∃ down c, PollStep down ∈ trace ∧ c ∈ down ∧ e = SendFailure c)
    as H.
  { induction trace as [|ev trace IH]; intros sys Hc; [by left|].
    rewrite run_cons in Hc.
    destruct (IH _ Hc) as [Hs|(down & c & Hin & Hd & ->)].
    - destruct (step_crash_cause _ _ _ Hs)
        as [?|(down & c & -> & Hd & -> & _)]; [by left|].
      right. exists down, c. split_and!; [left|done|done].
    - right. exists down, c. split_and!; [by right|done|done]. }
  intros Hc. by destruct (H initial Hc) as [?|?].
Qed.

Lemma loop_ends_only_by_send_failure_witness :
  ∃ down c,
    PollStep down
      ∈ [ WsConnect 1;
          PostDownload {| req_url := "u"; req_format_id := "best" |};
          PollStep []; PollStep []; PollStep [1] ]
    ∧ c ∈ down ∧ SendFailure 1 = SendFailure c.
Proof.
  apply (loop_ends_only_by_send_failure
           [ WsConnect 1;
             PostDownload {| req_url := "u"; req_format_id := "best" |};
             PollStep []; PollStep []; PollStep [1] ]
           (SendFailure 1)).
  reflexivity.
Defined.

(** ** The running system: broadcast inside the task *)

(** The handlers' events change the registry as the schedule says and
    touch nothing else. *)
Lemma run_registry_changes (cs : list registry_change) (sys : System) :
  let sys' := run (event_of <$> cs) sys in
  active_connections (manager sys')
  = foldl apply_change (active_connections (manager sys)) cs
  ∧ progress_task sys' = progress_task sys
  ∧ wire sys' = wire sys
  ∧ published sys' = published sys.
Proof.
  revert sys. induction cs as [|c cs IH]; intros sys; [done|].
  cbn zeta. rewrite fmap_cons, run_cons. cbn [foldl].
  destruct (IH (step sys (event_of c))) as (Hm & Ht & Hw & Hp).
  rewrite Hm, Ht, Hw, Hp, step_registry.
  assert (∀ down, event_of c ≠ PollStep down) as Hother by (by destruct c).
  destruct (step_other sys _ Hother) as (-> & -> & ->).
  by destruct c.
Qed.

(** X22: the stages of the task inside [broadcast] do what [broadcast]
    does.  With the task in [broadcast] at some position, running as many
    rounds as [broadcast] makes deliveries, each followed by the handlers'
    events of its await, and then one more stage, puts on the wire exactly
    what [broadcast] delivers from that position under the same schedule,
    leaves the registry that [broadcast] leaves, hands nothing else to
    [broadcast], and takes the task to the copy when [broadcast] returns
    and to its end when [broadcast] raises. *)
Theorem task_broadcast_is_broadcast
    (fuel : nat) (down : list WebSocket) (sched : list (list registry_change))
    (sys : System) (last_status : dict) (message : json) (pos : nat)
    (s : Sent) :
  progress_task sys = Broadcasting last_status message pos →
  broadcast_iter fuel down pos (active_connections (manager sys)) sched message
  = Some s →
  let sys' :=
    run (rounds (length (delivered s)) down sched ++ [PollStep down]) sys in
  wire sys' = wire sys ++ delivered s
  ∧ active_connections (manager sys') = registry s
  ∧ published sys' = published sys
  ∧ progress_task sys' = match outcome s with
                         | Ok _ => Copying last_status
                         | Raise e => Crashed e
                         end.
Proof.
  revert sched sys pos s.
  induction fuel as [|fuel IH]; intros sched sys pos s Ht Hs; [done|].
  cbn [broadcast_iter] in Hs.
  destruct (step_round down sys last_status message pos Ht) as (Hp & Hr).
  destruct (poll_frame down sys) as (Hm & _).
  destruct (active_connections (manager sys) !! pos) as [c|] eqn:Hc.
  - destruct (send_text down c) as [[]|e] eqn:Hsend.
    + destruct (broadcast_iter fuel down (S pos) _ (tl sched) message)
        as [s'|] eqn:Hs'; simpl in Hs; [|done].
      injection Hs as <-. cbn [delivered registry outcome length rounds].
      destruct Hr as [Hw Ht'].
      rewrite <-app_comm_cons, run_cons, <-app_assoc, run_app. cbn [step].
      destruct (run_registry_changes (hd [] sched)
                  (broadcast_progress_step down sys)) as (Hm2 & Ht2 & Hw2 & Hp2).
      rewrite Hm in Hm2.
      destruct (IH (tl sched)
                  (run (event_of <$> hd [] sched)
                     (broadcast_progress_step down sys))
                  (S pos) s') as (Hw3 & Hm3 & Hp3 & Ht3).
      { by rewrite Ht2. }
      { by rewrite Hm2. }
      rewrite Hw3, Hm3, Hp3, Ht3, Hw2, Hp2, Hw, Hp.
      by rewrite <-app_assoc.
    + injection Hs as <-. simpl. destruct Hr as [-> ->].
      by rewrite app_nil_r, Hm, Hp.
  - injection Hs as <-. simpl. destruct Hr as [-> ->].
    by rewrite app_nil_r, Hm, Hp.
Qed.

Lemma task_broadcast_is_broadcast_witness :
  let sys := run [WsConnect 1; WsConnect 2; WsConnect 3;
                  PostDownload {| req_url := "u"; req_format_id := "best" |};
                  PollStep []; PollStep []]
               initial in
  let message := json_dumps (dict_of [("status", PStr "starting")]) in
  wire (run (rounds 2 [] [[]; [Disconnects 1]] ++ [PollStep []]) sys)
  = [(1, message); (2, message)]
  ∧ active_connections
      (manager (run (rounds 2 [] [[]; [Disconnects 1]] ++ [PollStep []]) sys))
    = [2; 3].
Proof.
  intros sys message.
  destruct (task_broadcast_is_broadcast 4 [] [[]; [Disconnects 1]] sys ∅
              message 0
              {| outcome := Ok ();
                 delivered := [(1, message); (2, message)];
                 registry := [2; 3] |})
    as (Hw & Hm & _).
  - reflexivity.
  - reflexivity.
  - split; [exact Hw|exact Hm].
Defined.

(** ** The running system: the store and the scheduled jobs *)

(** X9: after any run the status store holds the initial empty dict or a
    status written by [start_download] or [hook]: its [status] is starting,
    downloading or finished and nothing else.  A download that fails is
    never recorded. *)
Theorem store_holds_known_status (trace : list event) :
  let d := current_status (download_manager (run trace initial)) in
  (d = ∅ ∨ status_shape d)
  ∧ get d "status" ∈ [PNone; PStr "starting"; PStr "downloading";
                      PStr "finished"].
Proof.
  intros d.
  destruct (run_wire_ok trace [] initial wire_ok_initial) as (Hs & _ & _ & _).
  fold d in Hs.
  assert (d = ∅ ∨ status_shape d) as Hshape.
  { destruct Hs as [?|Hs]; [by left|right]. by eapply written_shape. }
  split; [done|].
  destruct Hshape as [->|[| | ]].
  - unfold get. rewrite lookup_empty. simpl. left.
  - right. left.
  - do 2 right. left.
  - do 3 right. left.
Qed.

(** X10: the background tasks are exactly the downloads asked for, one
    per [/download] call and in the order of the calls; no call is refused,
    merged with another, or dropped, and nothing else schedules work. *)
Theorem every_download_is_scheduled (trace : list event) (sys : System) :
  scheduled (run trace sys) = scheduled sys ++ jobs trace.
Proof.
  revert sys. induction trace as [|ev trace IH]; intros sys.
  { simpl. by rewrite app_nil_r. }
  rewrite run_cons, IH. unfold jobs.
  destruct ev as [ws|ws|req|d|down]; simpl.
  - done.
  - by destruct (disconnect (manager sys) ws).
  - unfold add_task. by rewrite <-app_assoc.
  - by destruct (hook (download_manager sys) d).
  - f_equal. apply poll_frame.
Qed.

(** ** run_download and hook: the file name shown *)

Lemma ends_with_slash_split (a : string) :
  ends_with_slash a = true → ∃ a', a = a' +:+ "/".
Proof.
  induction a as [|c a IH]; [done|].
  destruct a as [|c' a].
  - simpl. intros H. apply bool_decide_eq_true in H as ->. by exists "".
  - intros H. destruct IH as [a' Ha']; [done|].
    exists (String c a'). rewrite Ha'. reflexivity.
Qed.

Lemma append_assoc (a b c : string) : (a +:+ b) +:+ c = a +:+ (b +:+ c).
Proof.
  induction a as [|x a IH]; [done|].
  change (String x ((a +:+ b) +:+ c) = String x (a +:+ (b +:+ c))).
  by rewrite IH.
Qed.

Lemma no_slash_not_absolute (name : string) :
  has_slash name = false → starts_with_slash name = false.
Proof.
  destruct name as [|c name]; [done|]. simpl.
  destruct (decide (c = "/"%char)); [done|]. by rewrite bool_decide_eq_false.
Qed.

Lemma basename_path_join (dir name : string) :
  has_slash name = false → basename (path_join dir name) = name.
Proof.
  intros Hn. unfold path_join. rewrite (no_slash_not_absolute name Hn).
  destruct (bool_decide (dir = "")) eqn:Ha; simpl.
  - apply bool_decide_eq_true in Ha as ->. by apply basename_id.
  - destruct (ends_with_slash dir) eqn:He.
    + apply ends_with_slash_split in He as [a' ->].
      rewrite append_assoc. by apply basename_after_slash.
    + by apply basename_after_slash.
Qed.

(** X11: [run_download] asks for files named after a template directly
    under [save_path].  For a file that yt_dlp writes there, whatever its
    name (a file name has no slash), a downloading report makes [hook]
    store the name alone, [os.path.basename] undoing [os.path.join]; the
    finished report for the same file makes it store the whole path. *)
Theorem basename_undoes_join (self : DownloadManager) (name : string) :
  has_slash name = false →
  let path := path_join save_path name in
  outtmpl = save_path +:+ "/" +:+ "%(title)s.%(ext)s"
  ∧ path = save_path +:+ "/" +:+ name
  ∧ (∀ dir, basename (path_join dir name) = name)
  ∧ (∀ d, d !! "status" = Some (PStr "downloading") → report_ok d →
          d !! "filename" = Some (PStr path) →
          ∃ self', hook self d = Ok self'
                   ∧ current_status self' !! "filename" = Some (PStr name))
  ∧ (∀ d, d !! "status" = Some (PStr "finished") →
          d !! "filename" = Some (PStr path) →
          ∃ self', hook self d = Ok self'
                   ∧ current_status self' !! "filename" = Some (PStr path)).
Proof.
  intros Hn path. split_and!.
  - reflexivity.
  - unfold path, path_join. by rewrite (no_slash_not_absolute name Hn).
  - intros dir. by apply basename_path_join.
  - intros d Hst Hok Hf. rewrite (hook_downloading self d Hst Hok).
    eexists. split; [reflexivity|]. unfold field. rewrite Hf. unfold path.
    rewrite (basename_path_join _ _ Hn). reflexivity.
  - intros d Hst Hf. rewrite (hook_finished self d Hst).
    eexists. split; [reflexivity|]. unfold get. rewrite Hf. reflexivity.
Qed.

Lemma basename_undoes_join_witness :
  let d (status : string) : dict :=
    dict_of [ ("status", PStr status);
              ("filename",
               PStr "/mnt/c/Users/lucky/Desktop/TubeDownloads/clip.mp4") ] in
  (∃ self', hook DownloadManager_init (d "downloading") = Ok self'
            ∧ current_status self' !! "filename" = Some (PStr "clip.mp4"))
  ∧ (∃ self', hook DownloadManager_init (d "finished") = Ok self'
              ∧ current_status self' !! "filename"
                = Some (PStr "/mnt/c/Users/lucky/Desktop/TubeDownloads/clip.mp4")).
Proof.
  intros d.
  destruct (basename_undoes_join DownloadManager_init "clip.mp4" eq_refl)
    as (_ & _ & _ & Hdl & Hfin).
  split.
  - apply (Hdl (d "downloading")); [reflexivity| |reflexivity].
    split; [by eexists|]. intros _. by split_and!.
  - apply (Hfin (d "finished")); reflexivity.
Defined.

(** ** hook and the module-level progress_hook *)

(** X12: [hook] takes a report without raising exactly when the report has
    a ['status'] and, if that is ['downloading'], each of the four values
    it reads is a str or missing.  Without ['status'] it raises KeyError;
    a downloading report with a value that is not a str raises
    AttributeError or TypeError into the collaborator; a report with any
    other status (yt_dlp also sends ['error']) is taken and changes
    nothing. *)
Theorem hook_accepts_iff (self : DownloadManager) (d : dict) :
  ((∃ self', hook self d = Ok self') ↔ report_ok d)
  ∧ (∀ e, hook self d = Raise e →
       (d !! "status" = None ∧ e = KeyError "status")
       ∨ (d !! "status" = Some (PStr "downloading")
          ∧ ∃ m, e = AttributeError m ∨ e = TypeError m))
  ∧ (∀ status, d !! "status" = Some status →
       status ≠ PStr "downloading" → status ≠ PStr "finished" →
       hook self d = Ok self).
Proof.
  split_and!.
  - destruct (hook_cases self d)
      as [[Hok Hex]|[Hno [[_ Hr]|[_ [m [Hr|Hr]]]]]];
      split; try done; intros [self' H]; congruence.
  - intros e He.
    destruct (hook_cases self d)
      as [[_ [self' Hex]]|[_ [[Hst Hr]|[Hst [m [Hr|Hr]]]]]]; [congruence|..].
    + left. split; [done|congruence].
    + right. split; [done|]. exists m. left. congruence.
    + right. split; [done|]. exists m. right. congruence.
  - intros status Hst Hdl Hfin. unfold hook, subscript. rewrite Hst. simpl.
    by rewrite !decide_False.
Qed.

(** X13: what a downloading report leaves in the store.  The four fields
    are the report's strings, the empty string where the report has none:
    percent, speed and eta without the white space around them (any
    character for which [str.isspace] holds, the no-break and the
    ideographic space among them; nothing else is taken away), so that
    none begins or ends with white space and stripping again changes
    nothing; the file name cut down to what follows its last slash, so
    that no directory is shown. *)
Theorem hook_stores_trimmed_fields (self self' : DownloadManager) (d : dict) :
  hook self d = Ok self' →
  d !! "status" = Some (PStr "downloading") →
  let percent := strip (field d "_percent_str") in
  let speed := strip (field d "_speed_str") in
  let eta := strip (field d "_eta_str") in
  let filename := basename (field d "filename") in
  current_status self'
  = dict_of [ ("status", PStr "downloading"); ("percent", PStr percent);
              ("speed", PStr speed); ("eta", PStr eta);
              ("filename", PStr filename) ]
  ∧ stripped_of (field d "_percent_str") percent
  ∧ stripped_of (field d "_speed_str") speed
  ∧ stripped_of (field d "_eta_str") eta
  ∧ base_of (field d "filename") filename
  ∧ strip percent = percent ∧ strip speed = speed ∧ strip eta = eta.
Proof.
  intros H Hst percent speed eta filename.
  split_and!; try apply strip_stripped_of; try apply basename_base_of;
    try (eapply strip_id, stripped_of_trimmed, strip_stripped_of).
  destruct (hook_cases self d)
    as [[Hok _]|[_ [[Hn _]|[_ [m [Hr|Hr]]]]]]; try congruence.
  rewrite (hook_downloading self d Hst Hok) in H. by injection H as <-.
Qed.

Lemma hook_stores_trimmed_fields_witness :
  let nbsp : string := String "194" (String "160" "") in
  let ideographic : string := String "227" (String "128" (String "128" "")) in
  let d : dict :=
    dict_of [ ("status", PStr "downloading");
              ("_percent_str", PStr (" " +:+ nbsp +:+ "7.5%" +:+ ideographic));
              ("filename", PStr "/tmp/out/clip.mp4") ] in
  ∃ self',
    hook DownloadManager_init d = Ok self'
    ∧ current_status self'
      = dict_of [ ("status", PStr "downloading"); ("percent", PStr "7.5%");
                  ("speed", PStr ""); ("eta", PStr "");
                  ("filename", PStr "clip.mp4") ].
Proof.
  intros nbsp ideographic d. eexists. split; [reflexivity|].
  exact (proj1 (hook_stores_trimmed_fields DownloadManager_init _ d
                  eq_refl eq_refl)).
Defined.

Lemma remove_percent_clean (s : string) : "%"%char ∉ chars (remove_percent s).
Proof.
  induction s as [|a s IH]; simpl; [apply not_elem_of_nil|].
  destruct (decide (a = "%"%char)); [done|].
  simpl. apply not_elem_of_cons. split; [congruence|done].
Qed.

(** X14: the module-level [progress_hook] raises only for a report without
    ['status'] (KeyError); whatever goes wrong while it builds its dict is
    swallowed.  The dict it builds, and drops, has a ['percentage'] without
    any percent sign. *)
Theorem progress_hook_raises_iff_no_status (d : dict) :
  (progress_hook d = Ok () ↔ is_Some (d !! "status"))
  ∧ (∀ e, progress_hook d = Raise e →
       d !! "status" = None ∧ e = KeyError "status")
  ∧ (∀ pd, progress_data d = Ok pd →
       ∃ p, pd !! "percentage" = Some (PStr p) ∧ "%"%char ∉ chars p).
Proof.
  unfold progress_hook, subscript. split_and!.
  - destruct (d !! "status") as [status|]; simpl.
    + split; [by eexists|intros _].
      destruct (decide _); [|done]. by destruct (progress_data d).
    + split; [done|by intros [? ?]].
  - intros e. destruct (d !! "status") as [status|]; simpl.
    + destruct (decide _); [|done]. by destruct (progress_data d).
    + intros H. by injection H as <-.
  - intros pd. unfold progress_data.
    destruct (get_or d "_percent_str" (PStr "0%")) as [|s|n]; simpl;
      intros H; try done.
    injection H as <-. exists (remove_percent s).
    split; [reflexivity|apply remove_percent_clean].
Qed.

(** ** /info: edge cases, order of equal sizes, the playlist step *)





Lemma sort_desc_same_key (z : Z) (l : list FormatEntry) :
  Forall (λ e, size_key e = z) l → sort_desc l = l.
Proof.
  intros Hl.
  assert (Forall (λ e, size_key e = z) (sort_desc l)) as Hs
    by (by rewrite sort_desc_perm).
  rewrite <-(filter_all (λ e, size_key e = z) (sort_desc l) Hs).
  rewrite sort_desc_stable. by apply filter_all.
Qed.

(** X16: the sort of the response is stable.  Among the formats of one
    size (a missing size counting as 0) the order of the extractor is
    kept; when no format has a known size, the response lists the video
    formats exactly in the extractor's order. *)
Theorem info_keeps_order_of_equal_sizes
    (ydl : Extractor) (req : VideoRequest) (r : InfoResponse) :
  get_info ydl req = inl r →
  ∃ x es,
    ydl (url req) = Ok x
    ∧ Forall2 entry_for
        (filter video (listed (formats (select_entry x)))) es
    ∧ (∀ z, filter (λ e, size_key e = z) (r_formats r)
            = filter (λ e, size_key e = z) es)
    ∧ (Forall (λ f, filesize f = None)
         (listed (formats (select_entry x))) →
       r_formats r = es).
Proof.
  intros H. destruct (get_info_inl _ _ _ H) as (x & es & Hx & _ & Hc & ->).
  apply collect_formats_Ok in Hc as Hes.
  exists x, es. simpl. split_and!; [done|done|intros z; apply sort_desc_stable|].
  intros Hnone. apply (sort_desc_same_key 0%Z).
  assert (Forall (λ f, filesize f = None)
            (filter video (listed (formats (select_entry x))))) as Hn'.
  { apply Forall_forall. intros f Hf. apply list_elem_of_filter in Hf as [_ Hf].
    rewrite Forall_forall in Hnone. by apply Hnone. }
  clear Hc Hnone H Hx.
  induction Hes as [|f e fs es' He _ IH]; [done|].
  apply Forall_cons in Hn' as [Hf Hn']. constructor; [|by apply IH].
  destruct He as (_ & _ & _ & _ & Hsize & _).
  unfold size_key. by rewrite Hsize, Hf.
Qed.

Lemma info_keeps_order_of_equal_sizes_witness :
  let unsized (i : string) : Format :=
    {| format_id := Value i; ext := Value "webm"; vcodec := Some "vp9";
       resolution := None; filesize := None; format_note := None |} in
  let ydl : Extractor := λ _,
    Ok {| info := {| _type := None; title := None; thumbnail := None;
                     duration := None;
                     formats := Value [unsized "a"; unsized "b"; unsized "c"] |};
          entries := None |} in
  ∃ r es, get_info ydl {| url := "https://example.com/v" |} = inl r
          ∧ Forall2 entry_for [unsized "a"; unsized "b"; unsized "c"] es
          ∧ r_formats r = es.
Proof.
  intros unsized ydl.
  destruct (info_keeps_order_of_equal_sizes ydl
              {| url := "https://example.com/v" |} _ eq_refl)
    as (x & es & Hx & Hes & _ & Hsame).
  injection Hx as <-.
  eexists _, es. split; [reflexivity|]. split; [exact Hes|].
  apply Hsame. simpl. by repeat constructor.
Defined.

Lemma entry_for_resolution (f : Format) (e : FormatEntry) :
  entry_for f e →
  e_resolution e ≠ ""
  ∧ (resolution f = None ∨ resolution f = Some "" →
     e_resolution e = "audio only").
Proof.
  intros (_ & _ & _ & _ & _ & _ & ->).
  destruct (resolution f) as [res|]; [|split; [done|auto]].
  destruct (decide (res = "")) as [->|Hne]; split; try done.
  intros [?|[= ?]]; done.
Qed.

Lemma Forall2_origin {A B} (P : A → B → Prop) (l : list A) (k : list B) :
  Forall2 P l k → Forall (λ y, ∃ x, x ∈ l ∧ P x y) k.
Proof.
  induction 1 as [|x y l k Hxy _ IH]; constructor.
  - exists x. split; [left|done].
  - eapply Forall_impl; [exact IH|].
    intros y' (x' & Hx' & HP). exists x'. split; [by right|done].
Qed.

(** X17: every format of a response stands for a format of the info dict
    that is not audio only, whose id and extension it carries, and its
    resolution is never empty: where the extractor gives no resolution, or
    an empty one, the entry says ['audio only'], although the format is a
    video format. *)
Theorem info_entries_have_resolution
    (ydl : Extractor) (req : VideoRequest) (r : InfoResponse) :
  get_info ydl req = inl r →
  ∃ x,
    ydl (url req) = Ok x
    ∧ Forall (λ e, e_resolution e ≠ ""
                   ∧ ∃ f, f ∈ listed (formats (select_entry x))
                          ∧ vcodec f ≠ Some "none"
                          ∧ entry_for f e
                          ∧ (resolution f = None ∨ resolution f = Some "" →
                             e_resolution e = "audio only"))
        (r_formats r).
Proof.
  intros H. destruct (get_info_inl _ _ _ H) as (x & es & Hx & _ & Hc & ->).
  exists x. split; [done|]. simpl. rewrite sort_desc_perm.
  apply collect_formats_Ok, Forall2_origin in Hc.
  eapply Forall_impl; [exact Hc|].
  intros e (f & Hf & He). apply list_elem_of_filter in Hf as [Hv Hf].
  destruct (entry_for_resolution f e He) as [Hne Hao].
  split; [done|]. by exists f.
Qed.

Lemma info_entries_have_resolution_witness :
  let f : Format :=
    {| format_id := Value "18"; ext := Value "mp4"; vcodec := None;
       resolution := Some ""; filesize := None; format_note := None |} in
  let ydl : Extractor := λ _,
    Ok {| info := {| _type := None; title := None; thumbnail := None;
                     duration := None; formats := Value [f] |};
          entries := None |} in
  ∃ r, get_info ydl {| url := "https://example.com/v" |} = inl r
       ∧ Forall (λ e, e_resolution e ≠ "") (r_formats r).
Proof.
  intros f ydl. eexists. split; [reflexivity|].
  destruct (info_entries_have_resolution ydl
              {| url := "https://example.com/v" |} _ eq_refl) as (x & _ & Hall).
  eapply Forall_impl; [exact Hall|].
  intros e [He _]. exact He.
Defined.

(** X18: a playlist is answered as its first entry would be: when the
    extracted info says ['playlist'] and has entries, the response is the
    one for the first entry alone, and the playlist's own title and
    formats and the other entries play no part.  A playlist without
    entries is answered from the playlist dict itself. *)
Theorem info_playlist_is_first_entry
    (ydl : Extractor) (req : VideoRequest) (x : Extraction)
    (first : Info) (others : list Info) :
  ydl (url req) = Ok x →
  _type (info x) = Some "playlist" →
  (entries x = Some (first :: others) →
     get_info ydl req
     = get_info (λ _, Ok {| info := first; entries := None |}) req)
  ∧ (entries x = None ∨ entries x = Some [] →
     get_info ydl req
     = get_info (λ _, Ok {| info := info x; entries := None |}) req).
Proof.
  intros Hx Hp. unfold get_info, get_info_try. rewrite Hx. simpl.
  split.
  - intros He.
    assert (select_entry x = first) as ->
      by (unfold select_entry; by rewrite decide_True, He).
    assert (select_entry {| info := first; entries := None |} = first) as ->
      by (unfold select_entry; simpl; by case_decide).
    done.
  - intros He.
    assert (select_entry x = info x) as ->
      by (unfold select_entry; rewrite decide_True by done;
          by destruct He as [-> | ->]).
    assert (select_entry {| info := info x; entries := None |} = info x) as ->
      by (unfold select_entry; simpl; by case_decide).
    done.
Qed.

Lemma info_playlist_is_first_entry_witness :
  let f : Format :=
    {| format_id := Value "18"; ext := Value "mp4"; vcodec := Some "avc1";
       resolution := Some "640x360"; filesize := Some 700%Z;
       format_note := None |} in
  let first : Info :=
    {| _type := None; title := Some "first"; thumbnail := None;
       duration := Some 3%Z; formats := Value [f] |} in
  let x : Extraction :=
    {| info := {| _type := Some "playlist"; title := Some "mix";
                  thumbnail := None; duration := None; formats := Absent |};
       entries := Some [first; first] |} in
  get_info (λ _, Ok x) {| url := "https://example.com/list" |}
  = get_info (λ _, Ok {| info := first; entries := None |})
      {| url := "https://example.com/list" |}.
Proof.
  intros f first x.
  apply (proj1 (info_playlist_is_first_entry (λ _, Ok x)
                  {| url := "https://example.com/list" |} x first [first]
                  eq_refl eq_refl)).
  reflexivity.
Defined.

(** ** The loop: how much it sends *)

Lemma published_bounded (trace : list event) (sys : System) :
  length (published (run trace sys))
  ≤ length (published sys)
    + match progress_task sys with Sending _ => 1 | _ => 0 end
    + length (observed trace sys).
Proof.
  revert sys. induction trace as [|ev trace IH]; intros sys; [simpl; lia|].
  rewrite run_cons. specialize (IH (step sys ev)).
  destruct (poll_or_other ev) as [[down ->]|Hother].
  - cbn [observed]. cbn [step] in *.
    destruct (progress_task sys)
      as [last_status|last_status|last_status message pos|last_status|e]
      eqn:Ht.
    + destruct (decide (current_status (download_manager sys) = last_status))
        as [Heq|Hne].
      * rewrite (step_test_unchanged down sys last_status) in * by done.
        rewrite Ht in IH. simpl. lia.
      * rewrite (step_test_changed down sys last_status) in * by done.
        simpl in *. lia.
    + destruct (step_send down sys last_status Ht) as (Hp & _ & Ht').
      rewrite Hp, Ht', length_app in IH. simpl in IH. lia.
    + destruct (step_round down sys last_status message pos Ht) as (Hp & Hr).
      rewrite Hp in IH.
      destruct (active_connections (manager sys) !! pos) as [c|].
      * destruct (send_text down c); destruct Hr as [_ Ht'];
          rewrite Ht' in IH; lia.
      * destruct Hr as [_ Ht']. rewrite Ht' in IH. lia.
    + rewrite (step_copy down sys last_status) in * by done. simpl in *. lia.
    + rewrite (step_crashed down sys e) in * by done. rewrite Ht in IH. lia.
  - destruct (step_other sys ev Hother) as (Ht & Hp & _).
    rewrite observed_other by done. by rewrite Ht, Hp in IH.
Qed.

Lemma observed_bounded (trace : list event) (sys : System) :
  length (observed trace sys) ≤ length (poll_steps trace).
Proof.
  revert sys. induction trace as [|ev trace IH]; intros sys; [done|].
  unfold poll_steps in *. rewrite filter_cons. cbn [observed].
  specialize (IH (step sys ev)).
  destruct ev; try (rewrite decide_False by (by intros H); exact IH).
  rewrite decide_True by done.
  destruct (progress_task sys); cbn [length]; lia.
Qed.

(** X19: the loop never sends more often than it looks.  After any run,
    the number of messages handed to [broadcast] is at most the number of
    tests the loop made, which is at most the number of stages it ran,
    however many progress reports and [/download] calls came in
    meanwhile. *)
Theorem broadcasts_bounded_by_tests (trace : list event) :
  length (published (run trace initial)) ≤ length (observed trace initial)
  ∧ length (observed trace initial) ≤ length (poll_steps trace).
Proof.
  split; [|apply observed_bounded].
  pose proof (published_bounded trace initial) as H. simpl in H. lia.
Qed.

(** X20: as long as no write to the store lands between the test of a
    turn and its copy, the loop coalesces: once a run is back between
    turns, the messages handed to [broadcast] are the values its tests
    read with every value equal to its predecessor dropped (the reads of
    the still empty store dropped first), and no two neighbours among them
    are equal. *)
Theorem undisturbed_loop_coalesces (trace : list event) :
  turns_undisturbed trace initial →
  between_turns (progress_task (run trace initial)) →
  published (run trace initial)
  = json_dumps <$> coalesce ∅ (observed trace initial)
  ∧ coalesce ∅ (observed trace initial)
    = distinct_consecutive
        (filter (λ v : dict, v ≠ ∅) (observed trace initial))
  ∧ no_repeat (published (run trace initial)).
Proof.
  intros Hu Hend.
  assert (published (run trace initial)
          = json_dumps <$> coalesce ∅ (observed trace initial)) as Hp
    by (by rewrite (undisturbed_published trace initial)).
  split_and!.
  - done.
  - destruct (observed_empty_prefix trace initial) as (n & values & Ho & Hv).
    rewrite Ho, coalesce_replicate_empty, filter_replicate_empty by done.
    by apply coalesce_written.
  - rewrite Hp. apply no_repeat_fmap; [apply _|apply coalesce_no_repeat].
Qed.

Lemma undisturbed_loop_coalesces_witness :
  let req := {| req_url := "u"; req_format_id := "best" |} in
  let trace :=
    [ WsConnect 1; PollStep []; PostDownload req; PostDownload req;
      PollStep []; PollStep []; PollStep []; PollStep []; PollStep [] ] in
  published (run trace initial)
  = json_dumps <$> coalesce ∅ (observed trace initial).
Proof.
  intros req trace.
  refine (proj1 (undisturbed_loop_coalesces trace _ _)).
  - cbn [turns_undisturbed trace].
    repeat split; intros H; try discriminate H; vm_compute; exact I.
  - vm_compute. exact I.
Defined.
